(** * Adaptive thresholding of Sentinel-1 backscatter: a shallow embedding

    The development follows [LakeErie_SurfaceWater_AdaptiveThresholding.js].
    The script is written against the Earth Engine client library: the
    operations of [ee.Number], [ee.Array], [ee.List] and [ee.Image] it
    calls are embedded in the module [EE], each from its entry in the
    Earth Engine API reference; the definitions of the script itself
    ([otsu], [globalWater], [binary], [connected], [edges],
    [edgeBufferPixel], [bufferedEdges], the season [switch]) follow the
    script line by line.

    Earth Engine computes in 64-bit floats. The images, the masks and the
    buffer are embedded over exact rationals ([Q]): they only compare
    values and count cells. For [otsu], where rounding decides between
    splits of equal or nearly equal value, the embedding is given twice:
    over [Q], and in the module [Numeric] over an arbitrary arithmetic,
    with the exact one and binary64 as instances. *)

From Stdlib Require Import ZArith QArith Qminmax Lqa Lia List Floats.
From stdpp Require Import base gmap strings list.

Local Open Scope Q_scope.

(** ** The Earth Engine operations the script uses *)

Module EE.

(** *** [ee.Number] *)

(** [ee.Number.divide]: "Divides the first value by the second, returning 0
    for division by 0." *)
Definition divide (a b : Q) : Q :=
  if Qeq_bool b 0 then 0 else a / b.

(** [ee.Number.pow] at the exponent 2, the only one the script uses. *)
Definition pow2 (a : Q) : Q := a * a.

(** *** [ee.List] *)

(** [ee.List.sequence(start, end)]: the numbers from [start] to [end],
    both included, in steps of one. *)
Definition sequence (start stop : nat) : list nat :=
  seq start (S stop - start).

(** *** [ee.Array], one-dimensional *)

Definition Array := list Q.

(** [array.slice(0, 0, i)]: the elements at the positions [0 .. i-1]. *)
Definition slice (a : Array) (start stop : nat) : Array :=
  firstn (stop - start) (skipn start a).

(** [array.reduce(ee.Reducer.sum(), [0]).get([0])]. *)
Definition reduceSum (a : Array) : Q :=
  fold_right Qplus 0 a.

(** [a.multiply(b)], element by element; the script only multiplies arrays
    of one length ([otsu] checks it before anything else is computed). *)
Fixpoint multiply (a b : Array) : Array :=
  match a, b with
  | x :: a', y :: b' => x * y :: multiply a' b'
  | _, _ => []
  end.

(** [array.sort(keys)]: the elements of [array] in the ascending order of
    their keys. Elements with equal keys keep their order (the sort is
    stable): insertion of each element in front of the first element whose
    key is not smaller. *)
Fixpoint insertByKey (x : Q * Q) (l : list (Q * Q)) : list (Q * Q) :=
  match l with
  | [] => [x]
  | y :: t => if Qle_bool (fst x) (fst y) then x :: y :: t
              else y :: insertByKey x t
  end.

Fixpoint sortPairs (l : list (Q * Q)) : list (Q * Q) :=
  match l with
  | [] => []
  | x :: t => insertByKey x (sortPairs t)
  end.

Definition sort (a : Array) (keys : list Q) : Array :=
  map snd (sortPairs (combine keys a)).

(** [array.get([-1])]: the last element; an empty array has none and the
    call fails. *)
Definition getLast (a : Array) : option Q :=
  match a with
  | [] => None
  | x :: t => Some (List.last t x)
  end.

(** *** [ee.Image], one band *)

(** A pixel of the grid on which the images are computed. *)
Definition Cell : Type := Z * Z.

(** [ee.Projection]: a coordinate reference system and the size of one of
    its pixels in metres ([nominalScale()]). *)
Record Projection := mkProjection {
  crs : string;
  nominalScale : Q
}.

(** An image is computed pixel by pixel on demand: a name for its band, the
    projection it carries, and for every cell either a value or nothing
    (the cell is masked: it holds no data). *)
Record Image := mkImage {
  bandName : string;
  projection : Projection;
  pixel : Cell -> option Q
}.

(** [image.select(band)]: the band of that name; Earth Engine raises when
    the image has no such band. *)
Definition select (img : Image) (band : string) : option Image :=
  if String.eqb band (bandName img) then Some img else None.

(** [image.rename(name)]. *)
Definition rename (img : Image) (name : string) : Image :=
  mkImage name (projection img) (pixel img).

(** [image.resample(mode)] only sets how the image is interpolated when it
    is later drawn in another projection: band, projection and the pixels
    on its own grid stay. *)
Definition resample (img : Image) (mode : string) : Image := img.

Definition ltb (a b : Q) : bool := negb (Qle_bool b a).

(** [image.lt(t)]: "Returns 1 if and only if the first value is less than
    the second"; a masked cell stays masked. *)
Definition lt (img : Image) (t : Q) : Image :=
  mkImage (bandName img) (projection img)
    (fun c => match pixel img c with
              | Some v => Some (if ltb v t then 1 else 0)
              | None => None
              end).

(** [image.gte(t)]: 1 if and only if the value is greater than or equal to
    [t]. *)
Definition gte (img : Image) (t : Q) : Image :=
  mkImage (bandName img) (projection img)
    (fun c => match pixel img c with
              | Some v => Some (if Qle_bool t v then 1 else 0)
              | None => None
              end).

(** [image.updateMask(mask)]: a cell keeps its value where it had one and
    the mask image has a value other than zero; it is masked elsewhere. *)
Definition updateMask (img mask : Image) : Image :=
  mkImage (bandName img) (projection img)
    (fun c => match pixel img c, pixel mask c with
              | Some v, Some m => if Qeq_bool m 0 then None else Some v
              | _, _ => None
              end).

(** [image.connectedPixelCount(maxSize, eightConnected)]: for every cell
    with a value, the number of cells of the connected patch of cells with
    that same value that it lies in, itself included, and [maxSize] when
    the patch has more cells than that. The patch is explored from the
    cell outwards, one ring of neighbours per round; [maxSize] rounds either
    exhaust the patch or reach more than [maxSize] cells. *)
Definition neighbours (eightConnected : bool) (c : Cell) : list Cell :=
  let '(x, y) := c in
  [(x - 1, y); (x + 1, y); (x, y - 1); (x, y + 1)]%Z ++
  if eightConnected
  then [(x - 1, y - 1); (x - 1, y + 1); (x + 1, y - 1); (x + 1, y + 1)]%Z
  else [].

Definition hasValue (img : Image) (v : Q) (c : Cell) : bool :=
  match pixel img c with
  | Some w => Qeq_bool w v
  | None => false
  end.

Definition grow (img : Image) (eightConnected : bool) (v : Q)
    (S : gset Cell) : gset Cell :=
  S ∪ filter (fun q => hasValue img v q = true)
        (set_bind (fun p => list_to_set (neighbours eightConnected p) : gset Cell) S).

Definition patch (img : Image) (eightConnected : bool) (rounds : nat)
    (v : Q) (c : Cell) : gset Cell :=
  Nat.iter rounds (grow img eightConnected v) {[c]}.

Definition patchCount (img : Image) (maxSize : nat) (eightConnected : bool)
    (v : Q) (c : Cell) : nat :=
  Nat.min maxSize (size (patch img eightConnected maxSize v c)).

Definition connectedPixelCount (img : Image) (maxSize : nat)
    (eightConnected : bool) : Image :=
  mkImage (bandName img) (projection img)
    (fun c => match pixel img c with
              | Some v =>
                  Some (inject_Z (Z.of_nat (patchCount img maxSize eightConnected v c)))
              | None => None
              end).

(** [image.fastDistanceTransform()], with its default arguments
    (neighborhood 256, units 'pixels', metric 'squared_euclidean'):
    "Returns the distance, as determined by the specified distance metric,
    to the nearest non-zero valued pixel in the input. The output contains
    values for all pixels within the given neighborhood size, regardless
    of the input's mask. Note: the default distance metric returns squared
    distance." A masked cell of the input counts as zero. *)
Definition nonZero (img : Image) (c : Cell) : bool :=
  match pixel img c with
  | Some v => negb (Qeq_bool v 0)
  | None => false
  end.

Fixpoint zrange (start : Z) (len : nat) : list Z :=
  match len with
  | O => []
  | S len' => start :: zrange (start + 1) len'
  end.

(** The offsets [-n .. n]. *)
Definition offsets (n : nat) : list Z :=
  zrange (- Z.of_nat n) (2 * n + 1).

Definition squaredDistance (c q : Cell) : Z :=
  ((fst c - fst q) * (fst c - fst q) + (snd c - snd q) * (snd c - snd q))%Z.

(** The smaller of two distances, either of which may be missing. *)
Definition closer (a b : option Z) : option Z :=
  match a, b with
  | Some x, Some y => Some (Z.min x y)
  | Some x, None => Some x
  | None, _ => b
  end.

(** The least of the values that [f] gives on a list. *)
Definition least {A : Type} (f : A -> option Z) (l : list A) : option Z :=
  fold_right (fun x acc => closer (f x) acc) None l.

(** The squared distance from [c] to the nearest non-zero cell of the
    window of [n] cells around it, row by row. *)
Definition nearest (img : Image) (n : nat) (c : Cell) : option Z :=
  let around := offsets n in
  least (fun dx =>
    least (fun dy =>
      let q := (fst c + dx, snd c + dy)%Z in
      if nonZero img q then Some (squaredDistance c q) else None)
      around)
    around.

Definition defaultNeighborhood : nat := 256.

Definition fastDistanceTransform (img : Image) : Image :=
  mkImage "distance" (projection img)
    (fun c =>
       match nearest img defaultNeighborhood c with
       | Some d => Some (inject_Z d)
       | None => None
       end).

(** [image.selfMask()]: the image masked by itself, "Updates an image's
    mask at all positions where the existing mask is not zero using the
    value of the image as the new mask value". *)
Definition selfMask (img : Image) : Image := updateMask img img.

(** *** [ee.List], as the charts use it *)

(** [list.indexOf(target)]: "the position of the first occurrence of target
    in list, or -1 if list does not contain target". *)
Fixpoint indexOf (l : list Q) (target : Q) : Z :=
  match l with
  | [] => (-1)%Z
  | x :: t =>
      if Qeq_bool x target then 0%Z
      else let r := indexOf t target in
           if (r <? 0)%Z then (-1)%Z else (r + 1)%Z
  end.

(** The position an index stands for: a negative index counts backwards
    from the end of the list; a position outside the list is an error. *)
Definition position (len : nat) (index : Z) : option nat :=
  let pos := if (index <? 0)%Z then (Z.of_nat len + index)%Z else index in
  if ((0 <=? pos) && (pos <? Z.of_nat len))%Z then Some (Z.to_nat pos) else None.

(** [list.get(index)] and [list.set(index, element)]. *)
Definition listGet {A : Type} (l : list A) (index : Z) : option A :=
  match position (length l) index with
  | Some i => nth_error l i
  | None => None
  end.

Definition listSet {A : Type} (l : list A) (index : Z) (x : A) : option (list A) :=
  match position (length l) index with
  | Some i => Some (<[i := x]> l)
  | None => None
  end.

(** [ee.List.sequence(start, end)] on integers that may be negative; the
    range is empty when the end lies below the start. *)
Definition sequenceZ (start stop : Z) : list Z :=
  zrange start (Z.to_nat (stop - start + 1)).

(** [ee.Array.cat([x, y], 1).toList()]: the rows [[x_i, y_i]]; the two
    arrays must have one length. *)
Fixpoint catColumns (x y : list Q) : option (list (list Q)) :=
  match x, y with
  | [], [] => Some []
  | a :: x', b :: y' =>
      match catColumns x' y' with
      | Some rows => Some ([a; b] :: rows)
      | None => None
      end
  | _, _ => None
  end.

(** *** [image.reduceRegion] with [ee.Reducer.sum()] *)

(** The pixels of a region at the scale of the reduction, each with the
    weight it enters the reduction with (the part of it inside the
    region). The sum reducer adds the weighted values of the cells that
    hold data, under the name of the band; a region of more than
    [maxPixels] pixels is an error. *)
Definition Region := list (Cell * Q).

Definition reduceRegionSum (img : Image) (region : Region) (maxPixels : Z)
    : option (string * Q) :=
  if (maxPixels <? Z.of_nat (length region))%Z then None
  else Some (bandName img,
             fold_right
               (fun cw acc =>
                  match pixel img (fst cw) with
                  | Some v => snd cw * v + acc
                  | None => acc
                  end) 0 region).

(** [dictionary.get(key)] on the dictionary of one reduced band. *)
Definition dictGet (d : string * Q) (key : string) : option Q :=
  if String.eqb key (fst d) then Some (snd d) else None.

End EE.

(** ** Global thresholding: [otsu] *)

(** The dictionary that [ee.Reducer.histogram] returns: the counts under the
    key ['histogram'] and the bucket means under ['bucketMeans']. *)
Record Histogram := mkHistogram {
  histogram : EE.Array;
  bucketMeans : EE.Array
}.

Section Otsu.

Variable h : Histogram.

Definition counts : EE.Array := histogram h.
Definition means : EE.Array := bucketMeans h.
Definition size : nat := length means.
Definition total : Q := EE.reduceSum counts.
Definition sum : Q := EE.reduceSum (EE.multiply means counts).
Definition mean : Q := EE.divide sum total.

Definition indices : list nat := EE.sequence 1 size.

Definition aCounts (i : nat) : EE.Array := EE.slice counts 0 i.
Definition aCount (i : nat) : Q := EE.reduceSum (aCounts i).
Definition aMeans (i : nat) : EE.Array := EE.slice means 0 i.
Definition aMean (i : nat) : Q :=
  EE.divide (EE.reduceSum (EE.multiply (aMeans i) (aCounts i))) (aCount i).
Definition bCount (i : nat) : Q := total - aCount i.
Definition bMean (i : nat) : Q :=
  EE.divide (sum - aCount i * aMean i) (bCount i).

(** The function mapped over [indices]. *)
Definition bssAt (i : nat) : Q :=
  aCount i * EE.pow2 (aMean i - mean) + bCount i * EE.pow2 (bMean i - mean).

Definition bss : list Q := map bssAt indices.

(** [otsu] fails ([None]) where Earth Engine raises: [means.multiply(counts)]
    on arrays of different lengths, and [get([-1])] on an empty array. *)
Definition otsu : option Q :=
  if negb (Nat.eqb (length counts) (length means)) then None
  else EE.getLast (EE.sort means bss).

End Otsu.

(** The histograms of the data model: counts that are not negative, bucket
    means strictly increasing, one count per mean. *)
Definition sameLength (h : Histogram) : Prop :=
  length (counts h) = length (means h).

Definition nonNegativeCounts (h : Histogram) : Prop :=
  Forall (Qle 0) (counts h).

Definition increasingMeans (h : Histogram) : Prop :=
  forall i j, (i < j < size h)%nat ->
    nth i (means h) 0 < nth j (means h) 0.

Definition twoNonEmpty (h : Histogram) : Prop :=
  exists p q, (p < q < size h)%nat /\
    0 < nth p (counts h) 0 /\ 0 < nth q (counts h) 0.

(** All the mass in one bucket: every bucket but the one at [j] is empty. *)
Definition singleBucket (h : Histogram) : Prop :=
  exists j, (j < size h)%nat /\
    forall i, (i < size h)%nat -> i <> j -> nth i (counts h) 0 == 0.

(** ** [otsu] in the arithmetic of the script

    The same lines 182 to 213, with the number operations left open: what
    [ee.Number] and [ee.Array] add, subtract, multiply, divide and compare
    is a parameter. *)

Module Numeric.

(** The operations of [ee.Number] that [otsu] uses, and the order that
    [ee.Array.sort] compares keys with. *)
Record Arithmetic := mkArithmetic {
  number : Type;
  zero : number;
  add : number -> number -> number;
  subtract : number -> number -> number;
  multiply : number -> number -> number;
  divide : number -> number -> number;
  pow2 : number -> number;
  leb : number -> number -> bool
}.

(** Exact arithmetic: the operations of the module [EE]. *)
Definition exact : Arithmetic :=
  mkArithmetic Q 0 Qplus Qminus Qmult EE.divide EE.pow2 Qle_bool.

(** The arithmetic of Earth Engine: IEEE 754 binary64, rounding to nearest;
    [divide] returns 0 for division by 0. *)
Definition binary64 : Arithmetic :=
  mkArithmetic float 0%float PrimFloat.add PrimFloat.sub PrimFloat.mul
    (fun a b => if PrimFloat.eqb b 0 then 0%float else PrimFloat.div a b)
    (fun a => PrimFloat.mul a a)
    PrimFloat.leb.

Section Otsu.

Variable A : Arithmetic.

Definition Array : Type := list (number A).

Definition slice (a : Array) (start stop : nat) : Array :=
  firstn (stop - start) (skipn start a).

Definition reduceSum (a : Array) : number A :=
  fold_right (add A) (zero A) a.

Fixpoint multiplyArrays (a b : Array) : Array :=
  match a, b with
  | x :: a', y :: b' => multiply A x y :: multiplyArrays a' b'
  | _, _ => []
  end.

Fixpoint insertByKey (x : number A * number A)
    (l : list (number A * number A)) : list (number A * number A) :=
  match l with
  | [] => [x]
  | y :: t => if leb A (fst x) (fst y) then x :: y :: t
              else y :: insertByKey x t
  end.

Fixpoint sortPairs (l : list (number A * number A))
    : list (number A * number A) :=
  match l with
  | [] => []
  | x :: t => insertByKey x (sortPairs t)
  end.

Definition sort (a : Array) (keys : Array) : Array :=
  map snd (sortPairs (combine keys a)).

Definition getLast (a : Array) : option (number A) :=
  match a with
  | [] => None
  | x :: t => Some (List.last t x)
  end.

Record Histogram := mkHistogram {
  histogram : Array;
  bucketMeans : Array
}.

Variable h : Histogram.

Definition counts : Array := histogram h.
Definition means : Array := bucketMeans h.
Definition size : nat := length means.
Definition total : number A := reduceSum counts.
Definition sum : number A := reduceSum (multiplyArrays means counts).
Definition mean : number A := divide A sum total.

Definition indices : list nat := EE.sequence 1 size.

Definition aCounts (i : nat) : Array := slice counts 0 i.
Definition aCount (i : nat) : number A := reduceSum (aCounts i).
Definition aMeans (i : nat) : Array := slice means 0 i.
Definition aMean (i : nat) : number A :=
  divide A (reduceSum (multiplyArrays (aMeans i) (aCounts i))) (aCount i).
Definition bCount (i : nat) : number A := subtract A total (aCount i).
Definition bMean (i : nat) : number A :=
  divide A (subtract A sum (multiply A (aCount i) (aMean i))) (bCount i).

Definition bssAt (i : nat) : number A :=
  add A (multiply A (aCount i) (pow2 A (subtract A (aMean i) mean)))
        (multiply A (bCount i) (pow2 A (subtract A (bMean i) mean))).

Definition bss : Array := map bssAt indices.

Definition otsu : option (number A) :=
  if negb (Nat.eqb (length counts) (length means)) then None
  else getLast (sort means bss).

End Otsu.

Arguments mkHistogram {A} histogram bucketMeans.
Arguments histogram {A} h.
Arguments bucketMeans {A} h.
Arguments counts {A} h.
Arguments means {A} h.
Arguments size {A} h.
Arguments total {A} h.
Arguments sum {A} h.
Arguments mean {A} h.
Arguments indices {A} h.
Arguments aCounts {A} h i.
Arguments aCount {A} h i.
Arguments aMeans {A} h i.
Arguments aMean {A} h i.
Arguments bCount {A} h i.
Arguments bMean {A} h i.
Arguments bssAt {A} h i.
Arguments bss {A} h.
Arguments otsu {A} h.

(** The order of [sort] on a list of keys: any two keys compare one way or
    the other, and the comparison is transitive. It is so for all
    rationals, and for all floats but NaN. *)
Definition comparable (A : Arithmetic) (keys : list (number A)) : bool :=
  forallb (fun x =>
    forallb (fun y =>
      (leb A x y || leb A y x) &&
      forallb (fun z => implb (leb A x y && leb A y z) (leb A x z)) keys)
    keys) keys.

(** Strictly increasing: no later element is at most an earlier one. *)
Fixpoint increasing (A : Arithmetic) (l : list (number A)) : bool :=
  match l with
  | [] => true
  | x :: t => forallb (fun y => negb (leb A y x)) t && increasing A t
  end.

End Numeric.

(** A histogram of rationals, for the exact arithmetic. *)
Definition inExact (h : Histogram) : Numeric.Histogram Numeric.exact :=
  Numeric.mkHistogram (A := Numeric.exact) (histogram h) (bucketMeans h).

(** A histogram of floats. *)
Definition inBinary64 (counts means : list float)
    : Numeric.Histogram Numeric.binary64 :=
  Numeric.mkHistogram (A := Numeric.binary64) counts means.

(** ** The parameters of the script *)

Record Params := mkParams {
  userSeason : string;
  userYear : Z;
  setResolution : Q;
  band : string;
  edgeLength : Q;
  edgeBuffer : Q;
  connectedPixels : nat;
  cannyThreshold : Q;
  cannySigma : Q;
  cannyLt : Q
}.

(** The values the script is distributed with. *)
Definition defaults : Params :=
  mkParams "Summer" 2023 30 "VV" 25 60 100 1 (1 # 2) (1 # 20).

(** ** Initialisation: the season and the date range *)

(** What the client library throws when a call lacks an argument that its
    signature requires: "Required argument (month) missing to function:
    ...", with the name of the argument and the function called. *)
Inductive Error : Type :=
  | RequiredArgumentMissing (argument function : string).

(** A statement either completes, or throws: the script stops there, with
    what [print] has written so far on the console. *)
Inductive Completion (A : Type) : Type :=
  | Normal (a : A)
  | Throw (error : Error) (log : list string).
Arguments Normal {A} a.
Arguments Throw {A} error log.

(** [var seasonStartMonth; var seasonEndMonth;] are declared without a
    value ([undefined], here [None]); [console] collects what [print]
    writes. *)
Record SeasonState := mkSeasonState {
  seasonStartMonth : option Z;
  seasonEndMonth : option Z;
  console : list string
}.

Definition declared : SeasonState := mkSeasonState None None [].

Definition assignMonths (first last : Z) (st : SeasonState) : SeasonState :=
  mkSeasonState (Some first) (Some last) (console st).

Definition print (message : string) (st : SeasonState) : SeasonState :=
  mkSeasonState (seasonStartMonth st) (seasonEndMonth st)
    (console st ++ [message]).

Definition invalidSeasonMessage : string :=
  "Invalid season input. Please choose Fall, Winter, Spring, or Summer.".

(** [switch (userSeason) { ... }]: no branch throws. *)
Definition seasonSwitch (season : string) (st : SeasonState)
    : Completion SeasonState :=
  if String.eqb season "Fall" then Normal (assignMonths 9 11 st)
  else if String.eqb season "Winter" then Normal (assignMonths 12 2 st)
  else if String.eqb season "Spring" then Normal (assignMonths 3 5 st)
  else if String.eqb season "Summer" then Normal (assignMonths 6 8 st)
  else Normal (print invalidSeasonMessage st).

(** The date expressions the script builds. *)
Inductive DateExpr : Type :=
  | fromYMD (year : Z) (month : option Z) (day : Z)
  | advance (delta : Z) (unit : string) (date : DateExpr).

(** The call [ee.Date.fromYMD(year, month, day)]. The client library
    checks the arguments of a call when the call is made, before anything
    is sent to the server: [year] and [day] are always given by the script,
    [month] is whatever the variable holds, and the call throws when that
    is [undefined]. *)
Definition callFromYMD (year : Z) (month : option Z) (day : Z)
    (st : SeasonState) : Completion DateExpr :=
  match month with
  | Some _ => Normal (fromYMD year month day)
  | None => Throw (RequiredArgumentMissing "month" "Date.fromYMD") (console st)
  end.

(** Sequencing of statements: the first that throws ends the script. *)
Definition andThen {A B : Type} (c : Completion A) (f : A -> Completion B)
    : Completion B :=
  match c with
  | Normal a => f a
  | Throw e log => Throw e log
  end.

(** Lines 101 to 111: [startDate] first, then [endDate]. *)
Definition dateRange (season : string) (year : Z) (st : SeasonState)
    : Completion (DateExpr * DateExpr) :=
  if String.eqb season "Winter" &&
     bool_decide (seasonStartMonth st = Some 12%Z)
  then
    andThen (callFromYMD (year - 1) (seasonStartMonth st) 1 st) (fun startDate =>
    andThen (callFromYMD year (seasonEndMonth st) 1 st) (fun endMonth =>
    Normal (startDate, advance 1 "month" endMonth)))
  else
    andThen (callFromYMD year (seasonStartMonth st) 1 st) (fun startDate =>
    andThen (callFromYMD year (seasonEndMonth st) 1 st) (fun endMonth =>
    Normal (startDate, advance 1 "month" endMonth))).

(** Lines 76 to 111 of the script: the declarations, the switch, the
    dates. None of the other parameters is read before the collection is
    built, and nothing in these lines, or later, compares a parameter with
    a bound. *)
Definition initialise (cfg : Params)
    : Completion (SeasonState * (DateExpr * DateExpr)) :=
  andThen (seasonSwitch (userSeason cfg) declared) (fun st =>
  andThen (dateRange (userSeason cfg) (userYear cfg) st) (fun dates =>
  Normal (st, dates))).

(** ** The two thresholding passes *)

Section Script.

Variable cfg : Params.

(** [s1Collection.first()], the image whose grid is the common grid. *)
Variable referenceImage : EE.Image.

(** The mean of the ascending and descending means, clipped to the study
    area, before it is renamed. *)
Variable composite : EE.Image.

Definition commonGrid : option EE.Image :=
  (fun img => EE.resample img "bicubic") <$> EE.select referenceImage (band cfg).

Definition s1Mosaic : EE.Image := EE.rename composite (band cfg).

Definition globalThreshold (globalHistogram : Histogram) : option Q :=
  otsu globalHistogram.

(** [s1Mosaic.select(band).lt(globalThreshold)]. *)
Definition globalWater (globalThreshold : Q) : option EE.Image :=
  (fun img => EE.lt img globalThreshold) <$> EE.select s1Mosaic (band cfg).

Definition initialThreshold (globalThreshold : Q) : Q := globalThreshold.

Definition binary (globalThreshold : Q) : option EE.Image :=
  (fun img => EE.rename (EE.lt img (initialThreshold globalThreshold)) "binary")
    <$> EE.select s1Mosaic (band cfg).

Definition imageProj : option EE.Projection :=
  EE.projection <$> commonGrid.

(** [canny] is the image that [ee.Algorithms.CannyEdgeDetector] returns for
    [binary]. *)
Definition connected (canny : EE.Image) : EE.Image :=
  EE.connectedPixelCount
    (EE.lt (EE.updateMask canny canny) (cannyLt cfg))
    (connectedPixels cfg) true.

Definition edges (canny : EE.Image) : EE.Image :=
  EE.gte (connected canny) (edgeLength cfg).

Definition edgeBufferPixel : option Q :=
  (fun proj => EE.divide (edgeBuffer cfg) (EE.nominalScale proj)) <$> imageProj.

Definition bufferedEdges (canny : EE.Image) : option EE.Image :=
  (fun b => EE.lt (EE.fastDistanceTransform (edges canny)) b) <$> edgeBufferPixel.

Definition localThreshold (localHistogram : Histogram) : option Q :=
  otsu localHistogram.

(** [s1Mosaic.select(band).lt(localThreshold)]. *)
Definition localWater (localThreshold : Q) : option EE.Image :=
  (fun img => EE.lt img localThreshold) <$> EE.select s1Mosaic (band cfg).

End Script.

(** One step of the exploration of a patch, as a relation: from a cell to a
    neighbour that holds the value [v]. *)
Definition patchStep (img : EE.Image) (eightConnected : bool) (v : Q)
    (p q : EE.Cell) : Prop :=
  In q (EE.neighbours eightConnected p) /\ EE.hasValue img v q = true.

(** The image whose patches [connected] counts. *)
Definition counted (cfg : Params) (canny : EE.Image) : EE.Image :=
  EE.lt (EE.updateMask canny canny) (cannyLt cfg).

(** The seasons the switch knows. *)
Definition recognised (season : string) : bool :=
  String.eqb season "Fall" || String.eqb season "Winter" ||
  String.eqb season "Spring" || String.eqb season "Summer".

(** The parameters with another buffer distance. *)
Definition withEdgeBuffer (cfg : Params) (d : Q) : Params :=
  mkParams (userSeason cfg) (userYear cfg) (setResolution cfg) (band cfg)
    (edgeLength cfg) d (connectedPixels cfg)
    (cannyThreshold cfg) (cannySigma cfg) (cannyLt cfg).

(** ** The thresholder as the specification words it

    Section 4.2 of the specification, kept apart from [otsu] for
    comparison: split indices 1 to N-1, the bucket mean at the split index
    that maximises the between-class variance, the later one on ties. *)

Module Spec.

Section Thresholder.

Variable h : Histogram.

Definition N : nat := length (bucketMeans h).
Definition total : Q := EE.reduceSum (histogram h).
Definition grandMean : Q :=
  EE.reduceSum (EE.multiply (histogram h) (bucketMeans h)) / total.
Definition countA (k : nat) : Q := EE.reduceSum (firstn k (histogram h)).
Definition meanA (k : nat) : Q :=
  EE.reduceSum (EE.multiply (firstn k (histogram h)) (firstn k (bucketMeans h)))
  / countA k.
Definition countB (k : nat) : Q := total - countA k.
Definition meanB (k : nat) : Q :=
  (grandMean * total - countA k * meanA k) / countB k.
Definition BSS (k : nat) : Q :=
  countA k * (meanA k - grandMean) ^ 2 + countB k * (meanB k - grandMean) ^ 2.

(** The between-class variance of the split [k] from the two classes
    themselves: each class with the count and the mean of its own
    buckets. *)
Definition classCount (cs : EE.Array) : Q := EE.reduceSum cs.
Definition classMean (cs ms : EE.Array) : Q :=
  EE.reduceSum (EE.multiply ms cs) / classCount cs.
Definition betweenClass (k : nat) : Q :=
  let cA := firstn k (histogram h) in
  let mA := firstn k (bucketMeans h) in
  let cB := skipn k (histogram h) in
  let mB := skipn k (bucketMeans h) in
  let mu := classMean (histogram h) (bucketMeans h) in
  classCount cA * (classMean cA mA - mu) ^ 2
  + classCount cB * (classMean cB mB - mu) ^ 2.

Definition splits : list nat := seq 1 (N - 1).

Fixpoint lastMaximum (ks : list nat) (best : option nat) : option nat :=
  match ks with
  | [] => best
  | k :: ks' =>
      lastMaximum ks'
        (match best with
         | Some b => if Qle_bool (BSS b) (BSS k) then Some k else Some b
         | None => Some k
         end)
  end.

(** The buckets that are not empty; with fewer than two of them the
    thresholder fails. *)
Definition nonEmpty : nat :=
  length (List.filter (fun c => negb (Qeq_bool c 0)) (histogram h)).

Definition otsu : option Q :=
  if (nonEmpty <? 2)%nat then None
  else match lastMaximum splits None with
       | Some k => Some (nth k (bucketMeans h) 0)
       | None => None
       end.

End Thresholder.

(** Section 4.5: a cell is in the buffer when its distance to the nearest
    edge cell is below [bufferDistance / resolution]; the distance is given
    by its square. *)
Definition bufferPixels (bufferDistance resolution : Q) : Q :=
  bufferDistance / resolution.

Definition inBuffer (squared : Z) (bufferDistance resolution : Q) : bool :=
  EE.ltb 0 (bufferPixels bufferDistance resolution) &&
  EE.ltb (inject_Z squared)
    (bufferPixels bufferDistance resolution * bufferPixels bufferDistance resolution).

End Spec.

(** ** Inputs for the examples *)

(** Two buckets of equal mass. *)
Definition twoBuckets : Histogram := mkHistogram [1; 1] [0; 10].

(** All the mass in the middle bucket. *)
Definition oneBucket : Histogram := mkHistogram [0; 5; 0] [1; 2; 3].

(** Two peaks of equal mass at -20 and -5. *)
Definition twoPeaks : Histogram :=
  mkHistogram [3; 1; 1; 3] [ -20; -15; -10; -5].

(** Three buckets with the middle one empty: the splits 1 and 2 separate
    the same two classes. Every value computed on it is a small whole
    number, in binary64 as in exact arithmetic. *)
Definition emptyMiddle : Histogram := mkHistogram [1; 0; 1] [0; 1; 2].

Definition emptyMiddle64 : Numeric.Histogram Numeric.binary64 :=
  inBinary64 [1; 0; 1]%float [0; 1; 2]%float.

(** A symmetric histogram: in exact arithmetic the splits 1 and 2 have the
    same value, 250/3, which no float holds. *)
Definition symmetric : Histogram := mkHistogram [2; 1; 2] [ -20; -15; -10].

(** [twoBuckets] in floats. *)
Definition twoBuckets64 : Numeric.Histogram Numeric.binary64 :=
  inBinary64 [1; 1]%float [0; 10]%float.

Definition symmetric64 : Numeric.Histogram Numeric.binary64 :=
  inBinary64 [2; 1; 2]%float [ -20; -15; -10]%float.

(** Two buckets whose means are one unit in the last place apart. *)
Definition adjacentMeans64 : Numeric.Histogram Numeric.binary64 :=
  inBinary64 [1; 1]%float [1; 1 + 0x1p-52]%float.

(** The native grid of Sentinel-1 GRD scenes: pixels of 10 metres. *)
Definition sentinel1Grid : EE.Projection := EE.mkProjection "EPSG:32617" 10.

Definition referenceScene : EE.Image :=
  EE.mkImage "VV" sentinel1Grid (fun _ => None).

(** An edge image: one straight edge of [n] cells on the row 0, starting at
    the origin, strength 1; no edge elsewhere. *)
Definition straightEdge (n : Z) : EE.Image :=
  EE.mkImage "binary" sentinel1Grid
    (fun c => if ((0 <=? fst c) && (fst c <? n) && (snd c =? 0))%Z
              then Some 1 else Some 0).

(** A composite with data in two cells. *)
Definition twoCells : EE.Image :=
  EE.mkImage "mean" sentinel1Grid
    (fun c => if (fst c =? 0)%Z && (snd c =? 0)%Z then Some (-20)
              else if (fst c =? 1)%Z && (snd c =? 0)%Z then Some (-5)
              else None).

(** Parameters that keep every edge, however short, and a buffer of zero. *)
Definition keepAllNoBuffer : Params :=
  mkParams "Summer" 2023 30 "VV" 1 0 100 1 (1 # 2) (1 # 20).

(** Parameters that validation would have to reject. *)
Definition invalidParams : Params :=
  mkParams "Autumn" 2023 5 "XX" (-25) (-60) 100 1 (1 # 2) (1 # 20).

(** The same with a season the switch knows: a resolution of 5 m, a band
    that Sentinel-1 does not have, a negative edge length and buffer. *)
Definition outOfRangeParams : Params :=
  mkParams "Summer" 2023 5 "XX" (-25) (-60) 100 1 (1 # 2) (1 # 20).

(** ** The rest of the script *)

(** *** The dates *)

(** The calendar month that a date expression of the script denotes, as a
    count of months: [ee.Date.fromYMD(y, m, 1)] is the first day of month
    [m] of year [y], and [advance(n, 'month')] moves a first of the month
    by [n] months. An undefined month, or a month outside 1..12, gives no
    date. *)
Fixpoint monthOf (d : DateExpr) : option Z :=
  match d with
  | fromYMD year (Some month) day =>
      if ((1 <=? month) && (month <=? 12) && (day =? 1))%Z
      then Some (12 * year + (month - 1))%Z else None
  | fromYMD _ None _ => None
  | advance delta unit date =>
      if String.eqb unit "month"
      then match monthOf date with
           | Some m => Some (m + delta)%Z
           | None => None
           end
      else None
  end.

(** *** The charts *)

(** A cell of the table handed to [ui.Chart]. *)
Inductive ChartCell : Type :=
  | CNumber (q : Q)
  | CString (s : string)
  | CNull
  | CColumn (label role type : string).

Definition columnHeader : list (list ChartCell) :=
  [[CColumn "Backscatter" "domain" "number";
    CColumn "Values" "data" "number";
    CColumn "Threshold" "annotation" "string"]].

(** Lines 229 to 293 (and 408 to 454 for the adaptive pass): the rows
    [[mean, count]], the annotation column with ['Otsu Threshold'] at the
    index of the threshold among the bucket means, the two put together
    under the header of three columns. (The table that the script first
    builds under a header of two columns is fetched into [chartData] and
    not used again.) *)
Definition annotatedRow (dataCol : list (list Q)) (thresholdCol : list string)
    (i : Z) : option (list ChartCell) :=
  match EE.listGet dataCol i, EE.listGet thresholdCol i with
  | Some row, Some note => Some (map CNumber row ++ [CString note])
  | _, _ => None
  end.

Fixpoint mapRows (f : Z -> option (list ChartCell)) (l : list Z)
    : option (list (list ChartCell)) :=
  match l with
  | [] => Some []
  | i :: l' =>
      match f i, mapRows f l' with
      | Some row, Some rows => Some (row :: rows)
      | _, _ => None
      end
  end.

Definition dataTable (h : Histogram) (threshold : Q)
    : option (list (list ChartCell)) :=
  let x := bucketMeans h in
  let y := histogram h in
  match EE.catColumns x y with
  | None => None
  | Some dataCol =>
      let thresholdCol := repeat EmptyString (length x) in
      let threshIndex := EE.indexOf x threshold in
      match EE.listSet thresholdCol threshIndex "Otsu Threshold" with
      | None => None
      | Some thresholdCol =>
          match mapRows (annotatedRow dataCol thresholdCol)
                  (EE.sequenceZ 0 (Z.of_nat (length x) - 1)) with
          | Some rows => Some (columnHeader ++ rows)
          | None => None
          end
      end
  end.

(** The callback of [evaluate]: the loop over the rows of the client-side
    table that turns an empty string in the third column into [null]. *)
Definition blankToNull (table : list (list ChartCell)) (i : nat)
    : list (list ChartCell) :=
  match nth_error table i with
  | Some row =>
      match nth_error row 2 with
      | Some (CString EmptyString) => <[i := <[2%nat := CNull]> row]> table
      | _ => table
      end
  | None => table
  end.

Definition dataTableClient (table : list (list ChartCell))
    : list (list ChartCell) :=
  fold_left blankToNull (seq 0 (length table)) table.

(** The table that the chart of a pass is drawn from. *)
Definition chart (h : Histogram) : option (list (list ChartCell)) :=
  match otsu h with
  | Some threshold => dataTableClient <$> dataTable h threshold
  | None => None
  end.

(** *** The sampling image and the pixel counts *)

(** [s1Mosaic.select(band).updateMask(bufferedEdges)]. *)
Definition edgeImage (cfg : Params) (referenceImage composite canny : EE.Image)
    : option EE.Image :=
  match EE.select (s1Mosaic cfg composite) (band cfg),
        bufferedEdges cfg referenceImage canny with
  | Some img, Some buffer => Some (EE.updateMask img buffer)
  | _, _ => None
  end.

Definition maxPixels : Z := 10000000000.

(** [water.reduceRegion({reducer: ee.Reducer.sum(), ..., maxPixels: 1e10})
    .get(band)], for [globalWater] and for [localWater]. *)
Definition waterCount (cfg : Params) (water : option EE.Image)
    (studyArea : EE.Region) : option Q :=
  match water with
  | Some img =>
      match EE.reduceRegionSum img studyArea maxPixels with
      | Some d => EE.dictGet d (band cfg)
      | None => None
      end
  | None => None
  end.

Definition globalWaterCount (cfg : Params) (composite : EE.Image)
    (globalThreshold : Q) (studyArea : EE.Region) : option Q :=
  waterCount cfg (globalWater cfg composite globalThreshold) studyArea.

Definition localWaterCount (cfg : Params) (composite : EE.Image)
    (localThreshold : Q) (studyArea : EE.Region) : option Q :=
  waterCount cfg (localWater cfg composite localThreshold) studyArea.

(** A region of three pixels, the last one half inside. *)
Definition threePixels : EE.Region :=
  [((0, 0)%Z, 1); ((1, 0)%Z, 1); ((2, 0)%Z, 1 # 2)].

(** The weight of the pixels of a region whose backscatter is below a
    threshold. *)
Definition weightBelow (composite : EE.Image) (t : Q) (region : EE.Region) : Q :=
  EE.reduceSum
    (map (fun cw => match EE.pixel composite (fst cw) with
                    | Some v => if EE.ltb v t then snd cw else 0
                    | None => 0
                    end) region).

(** What the loop of the chart callback does to one row. *)
Definition nullify (row : list ChartCell) : list ChartCell :=
  match nth_error row 2 with
  | Some (CString EmptyString) => <[2%nat := CNull]> row
  | _ => row
  end.

(** Parameters that ask for edges longer than the patch count can get. *)
Definition longerThanCap : Params :=
  mkParams "Summer" 2023 30 "VV" 101 60 100 1 (1 # 2) (1 # 20).

(** ** Facts about the Earth Engine operations *)

Section SortFacts.

Implicit Types (x y : Q * Q) (l s : list (Q * Q)).

Lemma insertByKey_In x y s :
  In y (EE.insertByKey x s) <-> y = x \/ In y s.
Proof.
  induction s as [|z t IH]; simpl.
  - intuition congruence.
  - destruct (Qle_bool (fst x) (fst z)); simpl; [intuition congruence|].
    rewrite IH. intuition congruence.
Qed.

Lemma sortPairs_In y l : In y (EE.sortPairs l) <-> In y l.
Proof.
  induction l as [|x t IH]; simpl; [tauto|].
  rewrite insertByKey_In, IH. intuition congruence.
Qed.

Lemma sortPairs_length l : length (EE.sortPairs l) = length l.
Proof.
  induction l as [|x t IH]; simpl; [reflexivity|].
  rewrite <- IH. generalize (EE.sortPairs t) as s.
  induction s as [|z s IHs]; simpl; [reflexivity|].
  destruct (Qle_bool (fst x) (fst z)); simpl; congruence.
Qed.

Lemma last_cons_ne {A} (z : A) (s : list A) d :
  s <> [] -> List.last (z :: s) d = List.last s d.
Proof. destruct s; [congruence|reflexivity]. Qed.

Lemma insertByKey_ne x s : EE.insertByKey x s <> [].
Proof.
  destruct s as [|z t]; simpl; [discriminate|].
  destruct (Qle_bool (fst x) (fst z)); discriminate.
Qed.

(** Where the inserted element lands: at the end exactly when its key is
    greater than every key already there. *)
Lemma insertByKey_last_new x s d :
  (forall y, In y s -> fst y < fst x) ->
  List.last (EE.insertByKey x s) d = x.
Proof.
  induction s as [|z t IH]; intros Hall; [reflexivity|].
  cbn [EE.insertByKey]. destruct (Qle_bool (fst x) (fst z)) eqn:E.
  - apply Qle_bool_iff in E. specialize (Hall z (or_introl eq_refl)). lra.
  - rewrite last_cons_ne by apply insertByKey_ne.
    apply IH. intros y Hy. apply Hall. right. exact Hy.
Qed.

Lemma insertByKey_last_old x s d y :
  In y s -> fst x <= fst y ->
  List.last (EE.insertByKey x s) d = List.last s d.
Proof.
  induction s as [|z t IH]; intros Hin Hle; [destruct Hin|].
  cbn [EE.insertByKey]. destruct (Qle_bool (fst x) (fst z)) eqn:E.
  - rewrite last_cons_ne by discriminate. reflexivity.
  - destruct Hin as [->|Hin].
    + apply Qle_bool_iff in Hle. congruence.
    + rewrite last_cons_ne by apply insertByKey_ne.
      rewrite (IH Hin Hle). symmetry. apply last_cons_ne.
      intros ->. destruct Hin.
Qed.

(** The last element of a stable ascending sort is the last of the elements
    with the greatest key. *)
Lemma sortPairs_last l d :
  l <> [] ->
  exists j, (j < length l)%nat /\
    List.last (EE.sortPairs l) d = nth j l d /\
    (forall i, (i < length l)%nat -> fst (nth i l d) <= fst (nth j l d)) /\
    (forall i, (j < i < length l)%nat -> fst (nth i l d) < fst (nth j l d)).
Proof.
  induction l as [|x t IH]; [congruence|intros _].
  destruct t as [|x' t'].
  - exists 0%nat. simpl. repeat split; [lia| |intros; lia].
    intros [|i] Hi; [lra|simpl in Hi; lia].
  - remember (x' :: t') as t eqn:Et.
    destruct IH as (j & Hj & Hlast & Hmax & Hstrict); [subst t; congruence|].
    clear Et.
    destruct (Qlt_le_dec (fst (nth j t d)) (fst x)) as [Hlt|Hle].
    + exists 0%nat. change (EE.sortPairs (x :: t)) with (EE.insertByKey x (EE.sortPairs t)).
      rewrite insertByKey_last_new.
      * split; [simpl; lia|]. split; [reflexivity|]. split.
        -- intros [|i] Hi; [apply Qle_refl|]. simpl in Hi.
           specialize (Hmax i ltac:(lia)).
           change (nth (S i) (x :: t) d) with (nth i t d).
           change (nth 0 (x :: t) d) with x. lra.
        -- intros [|i] Hi; [lia|]. simpl in Hi.
           specialize (Hmax i ltac:(lia)).
           change (nth (S i) (x :: t) d) with (nth i t d).
           change (nth 0 (x :: t) d) with x. lra.
      * intros y Hy. apply (proj1 (sortPairs_In _ _)) in Hy.
        destruct (In_nth _ _ d Hy) as (i & Hi & <-).
        specialize (Hmax i Hi). lra.
    + exists (S j). change (EE.sortPairs (x :: t)) with (EE.insertByKey x (EE.sortPairs t)).
      rewrite (insertByKey_last_old x (EE.sortPairs t) d (nth j t d)); [| |exact Hle].
      * change (nth (S j) (x :: t) d) with (nth j t d).
        repeat split; [simpl; lia|exact Hlast| |].
        -- intros [|i] Hi; [exact Hle|]. simpl in Hi. apply Hmax. lia.
        -- intros [|i] Hi; [lia|]. simpl in Hi. apply Hstrict. lia.
      * apply (proj2 (sortPairs_In _ _)). apply nth_In. exact Hj.
Qed.

End SortFacts.

Section NumberFacts.

Lemma divide_nonzero a b : ~ b == 0 -> EE.divide a b == a / b.
Proof.
  intros Hb. unfold EE.divide.
  destruct (Qeq_bool b 0) eqn:E; [|reflexivity].
  apply Qeq_bool_iff in E. contradiction.
Qed.

Lemma divide_zero a b : b == 0 -> EE.divide a b = 0.
Proof.
  intros Hb. unfold EE.divide.
  apply Qeq_bool_iff in Hb. rewrite Hb. reflexivity.
Qed.

Lemma divide_mult a b : ~ b == 0 -> b * EE.divide a b == a.
Proof. intros Hb. rewrite divide_nonzero by exact Hb. field. exact Hb. Qed.

#[export] Instance divide_Proper : Proper (Qeq ==> Qeq ==> Qeq) EE.divide.
Proof.
  intros a a' Ha b b' Hb. unfold EE.divide.
  destruct (Qeq_bool b 0) eqn:E, (Qeq_bool b' 0) eqn:E'.
  - reflexivity.
  - apply Qeq_bool_iff in E. apply Qeq_bool_neq in E'. rewrite <- Hb in E'. contradiction.
  - apply Qeq_bool_iff in E'. apply Qeq_bool_neq in E. rewrite Hb in E. contradiction.
  - rewrite Ha, Hb. reflexivity.
Qed.

#[export] Instance pow2_Proper : Proper (Qeq ==> Qeq) EE.pow2.
Proof. intros a b H. unfold EE.pow2. rewrite H. reflexivity. Qed.

Lemma pow2_nonneg a : 0 <= EE.pow2 a.
Proof. unfold EE.pow2. nra. Qed.

End NumberFacts.

Section ArrayFacts.

Implicit Types (a b c m : EE.Array).

Lemma slice_from_0 a i : EE.slice a 0 i = firstn i a.
Proof. unfold EE.slice. rewrite Nat.sub_0_r. reflexivity. Qed.

Lemma sequence_1 n : EE.sequence 1 n = seq 1 n.
Proof. unfold EE.sequence. f_equal. lia. Qed.

Lemma reduceSum_app a b :
  EE.reduceSum (a ++ b) == EE.reduceSum a + EE.reduceSum b.
Proof.
  induction a as [|x a IH]; simpl; [ring|]. rewrite IH. ring.
Qed.

Lemma multiply_firstn m c i :
  EE.multiply (firstn i m) (firstn i c) = firstn i (EE.multiply m c).
Proof.
  revert m c. induction i as [|i IH]; intros m c; [reflexivity|].
  destruct m as [|x m]; [reflexivity|].
  destruct c as [|y c]; simpl.
  - destruct (firstn i m); reflexivity.
  - f_equal. apply IH.
Qed.

Lemma multiply_skipn m c i :
  EE.multiply (skipn i m) (skipn i c) = skipn i (EE.multiply m c).
Proof.
  revert m c. induction i as [|i IH]; intros m c; [reflexivity|].
  destruct m as [|x m]; [reflexivity|].
  destruct c as [|y c]; simpl.
  - destruct (skipn i m); reflexivity.
  - apply IH.
Qed.

Lemma reduceSum_split a i :
  EE.reduceSum a == EE.reduceSum (firstn i a) + EE.reduceSum (skipn i a).
Proof. rewrite <- reduceSum_app, firstn_skipn. reflexivity. Qed.

Lemma reduceSum_nonneg c : Forall (Qle 0) c -> 0 <= EE.reduceSum c.
Proof.
  induction 1 as [|x c Hx _ IH]; simpl; [apply Qle_refl|lra].
Qed.

(** Sums over an array whose entries are zero away from the position [j]. *)
Lemma reduceSum_single c j :
  (forall i, (i < length c)%nat -> i <> j -> nth i c 0 == 0) ->
  EE.reduceSum c == nth j c 0.
Proof.
  revert j. induction c as [|x c IH]; intros j Hz; [destruct j; reflexivity|].
  destruct j as [|j]; simpl.
  - rewrite (IH (length c)).
    + rewrite nth_overflow by lia. ring.
    + intros i Hi _. apply (Hz (S i)); simpl; lia.
  - rewrite (IH j).
    + rewrite (Hz 0%nat) by (simpl; lia). ring.
    + intros i Hi Hne. apply (Hz (S i)); simpl; lia.
Qed.

Lemma weighted_single m c j :
  length m = length c ->
  (forall i, (i < length c)%nat -> i <> j -> nth i c 0 == 0) ->
  EE.reduceSum (EE.multiply m c) == nth j m 0 * nth j c 0.
Proof.
  revert c j. induction m as [|x m IH]; intros [|y c] j Hlen Hz;
    try discriminate; [destruct j; simpl; ring|].
  injection Hlen as Hlen. destruct j as [|j]; simpl.
  - rewrite (IH c (length c) Hlen).
    + rewrite (nth_overflow c) by lia. ring.
    + intros i Hi _. apply (Hz (S i)); simpl; lia.
  - rewrite (IH c j Hlen).
    + rewrite (Hz 0%nat) by (simpl; lia). ring.
    + intros i Hi Hne. apply (Hz (S i)); simpl; lia.
Qed.

Lemma last_map_snd {K V : Type} (l : list (K * V)) d :
  List.last (map snd l) (snd d) = snd (List.last l d).
Proof.
  induction l as [|x t IH]; [reflexivity|].
  destruct t as [|y t]; [reflexivity|].
  rewrite last_cons_ne by discriminate. rewrite <- IH.
  apply (last_cons_ne (snd x) (map snd (y :: t))). discriminate.
Qed.

Lemma last_cons_default {A} (x : A) (t : list A) d :
  List.last (x :: t) d = List.last t x.
Proof.
  revert x d. induction t as [|y t IH]; intros x d; [reflexivity|].
  rewrite last_cons_ne by discriminate. rewrite !IH. reflexivity.
Qed.

Lemma getLast_map_snd (l : list (Q * Q)) d :
  l <> [] -> EE.getLast (map snd l) = Some (snd (List.last l d)).
Proof.
  destruct l as [|x t]; [congruence|intros _].
  change (EE.getLast (map snd (x :: t)))
    with (Some (List.last (map snd t) (snd x))).
  rewrite last_map_snd, last_cons_default. reflexivity.
Qed.

End ArrayFacts.

(** ** Facts about [otsu] *)

Section OtsuFacts.

Variable h : Histogram.
Hypothesis Hlen : length (counts h) = length (means h).

Lemma indices_seq : indices h = seq 1 (size h).
Proof. apply sequence_1. Qed.

Lemma bss_length : length (bss h) = size h.
Proof. unfold bss. rewrite length_map, indices_seq, length_seq. reflexivity. Qed.

Lemma bss_nth j d : (j < size h)%nat -> nth j (bss h) d = bssAt h (S j).
Proof.
  intros Hj. unfold bss. rewrite indices_seq.
  rewrite (nth_indep _ d (bssAt h 0)) by (rewrite length_map, length_seq; exact Hj).
  rewrite map_nth, seq_nth by exact Hj. reflexivity.
Qed.

(** At the last index class A is the whole histogram and class B is empty. *)
Lemma aCounts_size : aCounts h (size h) = counts h.
Proof.
  unfold aCounts, size. rewrite slice_from_0, <- Hlen. apply firstn_all.
Qed.

Lemma aMeans_size : aMeans h (size h) = means h.
Proof. unfold aMeans, size. rewrite slice_from_0. apply firstn_all. Qed.

Lemma aCount_size : aCount h (size h) = total h.
Proof. unfold aCount. rewrite aCounts_size. reflexivity. Qed.

Lemma aMean_size : aMean h (size h) = mean h.
Proof.
  unfold aMean. rewrite aMeans_size, aCount_size, aCounts_size. reflexivity.
Qed.

Lemma bCount_size : bCount h (size h) == 0.
Proof. unfold bCount. rewrite aCount_size. ring. Qed.

Lemma bssAt_size : bssAt h (size h) == 0.
Proof.
  unfold bssAt. rewrite aMean_size, bCount_size. unfold EE.pow2. ring.
Qed.

(** What [means.sort(bss).get([-1])] selects: the mean at the position of
    the last greatest entry of [bss]; entry [j] of [bss] is the value at the
    split index [j + 1]. *)
Lemma otsu_last_maximum :
  (0 < size h)%nat ->
  exists k, (1 <= k <= size h)%nat /\
    otsu h = Some (nth (k - 1) (means h) 0) /\
    (forall k', (1 <= k' <= size h)%nat -> bssAt h k' <= bssAt h k) /\
    (forall k', (k < k' <= size h)%nat -> bssAt h k' < bssAt h k).
Proof.
  intros Hpos.
  assert (length (combine (bss h) (means h)) = size h) as Hcl.
  { rewrite length_combine, bss_length. unfold size. lia. }
  destruct (sortPairs_last (combine (bss h) (means h)) (0, 0)) as
    (j & Hj & Hlast & Hmax & Hstrict).
  { intros E. rewrite E in Hcl. simpl in Hcl. lia. }
  rewrite Hcl in *.
  assert (forall i, (i < size h)%nat ->
            nth i (combine (bss h) (means h)) (0, 0)
            = (bssAt h (S i), nth i (means h) 0)) as Hnth.
  { intros i Hi. rewrite combine_nth by (rewrite bss_length; reflexivity).
    rewrite bss_nth by exact Hi. reflexivity. }
  exists (S j). split; [lia|]. split; [|split].
  - unfold otsu. rewrite Hlen, Nat.eqb_refl. cbn [negb]. unfold EE.sort.
    rewrite (getLast_map_snd _ (0, 0)).
    + rewrite Hlast, Hnth by exact Hj. simpl. rewrite Nat.sub_0_r. reflexivity.
    + intros E. apply (f_equal (@length _)) in E.
      rewrite sortPairs_length, Hcl in E. simpl in E. lia.
  - intros [|i] Hi; [lia|]. specialize (Hmax i ltac:(lia)).
    rewrite !Hnth in Hmax by lia. exact Hmax.
  - intros [|i] Hi; [lia|]. specialize (Hstrict i ltac:(lia)).
    rewrite !Hnth in Hstrict by lia. exact Hstrict.
Qed.

(** With all the mass in one bucket no split separates anything. *)
Lemma bssAt_singleBucket i : singleBucket h -> bssAt h i == 0.
Proof.
  intros (j & Hj & Hz). unfold size in Hj, Hz.
  set (c := nth j (counts h) 0). set (m := nth j (means h) 0).
  assert (total h == c) as Htot.
  { apply reduceSum_single. intros i' Hi'. apply Hz. lia. }
  assert (sum h == m * c) as Hsum.
  { apply weighted_single; [symmetry; exact Hlen|].
    intros i' Hi'. apply Hz. lia. }
  assert (forall i', (i' < length (firstn i (counts h)))%nat -> i' <> j ->
            nth i' (firstn i (counts h)) 0 == 0) as HzA.
  { intros i' Hi' Hne. rewrite length_firstn in Hi'. rewrite nth_firstn.
    destruct (Nat.ltb_spec i' i); [apply Hz; lia|reflexivity]. }
  assert (aCount h i == if (j <? i)%nat then c else 0) as HaC.
  { unfold aCount, aCounts. rewrite slice_from_0.
    etransitivity; [apply (reduceSum_single _ j HzA)|].
    rewrite nth_firstn. reflexivity. }
  assert (EE.reduceSum (EE.multiply (aMeans h i) (aCounts h i))
          == if (j <? i)%nat then m * c else 0) as HSA.
  { unfold aMeans, aCounts. rewrite !slice_from_0.
    etransitivity; [apply (weighted_single _ _ j); [|exact HzA]|].
    - rewrite !length_firstn. lia.
    - rewrite !nth_firstn. destruct (j <? i)%nat; [reflexivity|ring]. }
  unfold bssAt, bMean, bCount, mean, aMean, EE.pow2.
  rewrite HSA, Hsum, Htot. clear HSA Hsum Htot HzA.
  destruct (Qeq_dec c 0) as [Hc|Hc].
  - assert (aCount h i == 0) as ->
      by (rewrite HaC; destruct (j <? i)%nat; [exact Hc|reflexivity]).
    destruct (j <? i)%nat; rewrite Hc; ring.
  - assert (EE.divide (m * c) c == m) as Hq
      by (rewrite divide_nonzero by exact Hc; field; exact Hc).
    rewrite HaC. destruct (j <? i)%nat.
    + rewrite Hq. ring.
    + change (EE.divide 0 0) with 0.
      assert (c - 0 == c) as -> by ring.
      assert (m * c - 0 * 0 == m * c) as -> by ring.
      rewrite Hq. ring.
Qed.

End OtsuFacts.

Lemma weighted_comm (a b : EE.Array) :
  EE.reduceSum (EE.multiply a b) == EE.reduceSum (EE.multiply b a).
Proof.
  revert b. induction a as [|x a IH]; intros [|y b]; simpl; try reflexivity.
  rewrite IH. ring.
Qed.

(** In exact arithmetic the value at a split that leaves buckets with
    counts on both sides is the BSS(k) of the specification. *)
Lemma bssAt_Spec_BSS (h : Histogram) (k : nat) :
  0 < Spec.classCount (firstn k (histogram h)) ->
  0 < Spec.classCount (skipn k (histogram h)) ->
  bssAt h k == Spec.BSS h k.
Proof.
  intros HA HB. unfold Spec.classCount in HA, HB.
  pose proof (reduceSum_split (histogram h) k) as Htot.
  unfold Spec.BSS, Spec.meanB, Spec.countB, Spec.meanA, Spec.countA,
    Spec.grandMean, Spec.total.
  unfold bssAt, bMean, bCount, mean, aMean, aCount, aCounts, aMeans, total, sum.
  rewrite !slice_from_0. unfold counts, means.
  rewrite (weighted_comm (histogram h) (bucketMeans h)).
  rewrite (weighted_comm (firstn k (histogram h)) (firstn k (bucketMeans h))).
  set (cA := EE.reduceSum (firstn k (histogram h))) in *.
  set (cB := EE.reduceSum (skipn k (histogram h))) in *.
  set (sA := EE.reduceSum
               (EE.multiply (firstn k (bucketMeans h)) (firstn k (histogram h)))).
  set (S := EE.reduceSum (EE.multiply (bucketMeans h) (histogram h))).
  set (T := EE.reduceSum (histogram h)) in *.
  assert (~ cA == 0) as HA0 by lra.
  assert (~ T == 0) as HT0 by lra.
  assert (~ T - cA == 0) as HB0 by lra.
  rewrite !divide_nonzero by assumption.
  unfold EE.pow2. field. repeat split; assumption.
Qed.

(** It is the between-class variance of the two classes: the mean that
    [bMean] derives from the totals is the mean of the buckets of class
    B. *)
Lemma bssAt_betweenClass (h : Histogram) (k : nat) :
  0 < Spec.classCount (firstn k (histogram h)) ->
  0 < Spec.classCount (skipn k (histogram h)) ->
  bssAt h k == Spec.betweenClass h k.
Proof.
  intros HA HB. unfold Spec.classCount in HA, HB.
  pose proof (reduceSum_split (counts h) k) as Htot. fold (total h) in Htot.
  unfold counts in Htot.
  assert (sum h
          == EE.reduceSum (EE.multiply (firstn k (means h)) (firstn k (counts h)))
             + EE.reduceSum (EE.multiply (skipn k (means h)) (skipn k (counts h))))
    as Hsum.
  { unfold sum. rewrite multiply_firstn, multiply_skipn. apply reduceSum_split. }
  unfold means, counts in Hsum.
  unfold Spec.betweenClass, Spec.classMean, Spec.classCount. cbv zeta.
  unfold bssAt, bMean, bCount, mean, aMean, aCount, aCounts, aMeans.
  rewrite !slice_from_0. unfold counts, means.
  fold (total h). fold (sum h).
  set (cA := EE.reduceSum (firstn k (histogram h))) in *.
  set (cB := EE.reduceSum (skipn k (histogram h))) in *.
  set (sA := EE.reduceSum
               (EE.multiply (firstn k (bucketMeans h)) (firstn k (histogram h))))
    in *.
  set (sB := EE.reduceSum
               (EE.multiply (skipn k (bucketMeans h)) (skipn k (histogram h))))
    in *.
  change (EE.reduceSum (histogram h)) with (total h).
  change (EE.reduceSum (EE.multiply (bucketMeans h) (histogram h))) with (sum h).
  assert (~ cA == 0) as HA0 by lra.
  assert (~ total h == 0) as HT0 by lra.
  assert (~ total h - cA == 0) as HB0 by lra.
  rewrite !divide_nonzero by assumption.
  unfold EE.pow2. rewrite Hsum, Htot in *.
  field. repeat split; lra.
Qed.

(** ** Facts about [otsu] in any arithmetic *)

Section NumericFacts.

Variable A : Numeric.Arithmetic.

Implicit Types (x y : Numeric.number A * Numeric.number A)
               (l s : list (Numeric.number A * Numeric.number A)).

Lemma numeric_insertByKey_In x y s :
  In y (Numeric.insertByKey A x s) <-> y = x \/ In y s.
Proof.
  induction s as [|z t IH]; simpl.
  - intuition congruence.
  - destruct (Numeric.leb A (fst x) (fst z)); simpl; [intuition congruence|].
    rewrite IH. intuition congruence.
Qed.

Lemma numeric_sortPairs_In y l : In y (Numeric.sortPairs A l) <-> In y l.
Proof.
  induction l as [|x t IH]; simpl; [tauto|].
  rewrite numeric_insertByKey_In, IH. intuition congruence.
Qed.

Lemma numeric_sortPairs_length l : length (Numeric.sortPairs A l) = length l.
Proof.
  induction l as [|x t IH]; simpl; [reflexivity|].
  rewrite <- IH. generalize (Numeric.sortPairs A t) as s.
  induction s as [|z s IHs]; simpl; [reflexivity|].
  destruct (Numeric.leb A (fst x) (fst z)); simpl; congruence.
Qed.

Lemma numeric_insertByKey_ne x s : Numeric.insertByKey A x s <> [].
Proof.
  destruct s as [|z t]; simpl; [discriminate|].
  destruct (Numeric.leb A (fst x) (fst z)); discriminate.
Qed.

(** Where the inserted element lands: at the end exactly when its key is
    at most none of the keys already there. *)
Lemma numeric_insertByKey_last_new x s d :
  (forall y, In y s -> Numeric.leb A (fst x) (fst y) = false) ->
  List.last (Numeric.insertByKey A x s) d = x.
Proof.
  induction s as [|z t IH]; intros Hall; [reflexivity|].
  cbn [Numeric.insertByKey]. rewrite (Hall z (or_introl eq_refl)).
  rewrite last_cons_ne by apply numeric_insertByKey_ne.
  apply IH. intros y Hy. apply Hall. right. exact Hy.
Qed.

Lemma numeric_insertByKey_last_old x s d y :
  In y s -> Numeric.leb A (fst x) (fst y) = true ->
  List.last (Numeric.insertByKey A x s) d = List.last s d.
Proof.
  induction s as [|z t IH]; intros Hin Hle; [destruct Hin|].
  cbn [Numeric.insertByKey]. destruct (Numeric.leb A (fst x) (fst z)) eqn:E.
  - rewrite last_cons_ne by discriminate. reflexivity.
  - destruct Hin as [->|Hin]; [congruence|].
    rewrite last_cons_ne by apply numeric_insertByKey_ne.
    rewrite (IH Hin Hle). symmetry. apply last_cons_ne.
    intros ->. destruct Hin.
Qed.

Lemma comparable_spec (keys : list (Numeric.number A)) :
  Numeric.comparable A keys = true ->
  forall a b c, In a keys -> In b keys -> In c keys ->
    (Numeric.leb A a b = true \/ Numeric.leb A b a = true) /\
    (Numeric.leb A a b = true -> Numeric.leb A b c = true ->
     Numeric.leb A a c = true).
Proof.
  unfold Numeric.comparable. intros H a b c Ha Hb Hc.
  rewrite forallb_forall in H. specialize (H a Ha).
  rewrite forallb_forall in H. specialize (H b Hb).
  apply andb_prop in H. destruct H as [H1 H2].
  rewrite forallb_forall in H2. specialize (H2 c Hc).
  split.
  - apply orb_prop in H1. exact H1.
  - intros Hab Hbc. rewrite Hab, Hbc in H2. exact H2.
Qed.

(** The last element of a stable ascending sort is the last of the elements
    with the greatest key, in whatever arithmetic the keys are compared. *)
Lemma numeric_sortPairs_last l d :
  l <> [] ->
  (forall a b c, In a l -> In b l -> In c l ->
     (Numeric.leb A (fst a) (fst b) = true \/
      Numeric.leb A (fst b) (fst a) = true) /\
     (Numeric.leb A (fst a) (fst b) = true ->
      Numeric.leb A (fst b) (fst c) = true ->
      Numeric.leb A (fst a) (fst c) = true)) ->
  exists j, (j < length l)%nat /\
    List.last (Numeric.sortPairs A l) d = nth j l d /\
    (forall i, (i < length l)%nat ->
               Numeric.leb A (fst (nth i l d)) (fst (nth j l d)) = true) /\
    (forall i, (j < i < length l)%nat ->
               Numeric.leb A (fst (nth j l d)) (fst (nth i l d)) = false).
Proof.
  induction l as [|x t IH]; [congruence|intros _ Hord].
  assert (forall a, In a (x :: t) -> Numeric.leb A (fst a) (fst a) = true)
    as Hrefl.
  { intros a Ha. destruct (Hord a a a Ha Ha Ha) as [[H|H] _]; exact H. }
  destruct t as [|x' t'].
  - exists 0%nat. simpl. repeat split; [lia| |intros; lia].
    intros [|i] Hi; [|simpl in Hi; lia]. apply Hrefl. left. reflexivity.
  - remember (x' :: t') as t eqn:Et.
    destruct IH as (j & Hj & Hlast & Hmax & Hstrict).
    { subst t; congruence. }
    { intros a b c Ha Hb Hc. apply Hord; right; assumption. }
    clear Et.
    assert (In (nth j t d) t) as Hjin by (apply nth_In; exact Hj).
    change (Numeric.sortPairs A (x :: t))
      with (Numeric.insertByKey A x (Numeric.sortPairs A t)).
    destruct (Numeric.leb A (fst x) (fst (nth j t d))) eqn:E.
    + exists (S j).
      rewrite (numeric_insertByKey_last_old x (Numeric.sortPairs A t) d
                 (nth j t d)); [| |exact E].
      * change (nth (S j) (x :: t) d) with (nth j t d).
        repeat split; [simpl; lia|exact Hlast| |].
        -- intros [|i] Hi; [exact E|]. simpl in Hi. apply Hmax. lia.
        -- intros [|i] Hi; [lia|]. simpl in Hi. apply Hstrict. lia.
      * apply (proj2 (numeric_sortPairs_In _ _)). exact Hjin.
    + assert (forall y, In y t -> Numeric.leb A (fst x) (fst y) = false)
        as Hnew.
      { intros y Hy.
        destruct (Numeric.leb A (fst x) (fst y)) eqn:Exy; [|reflexivity].
        destruct (In_nth _ _ d Hy) as (i & Hi & <-).
        pose proof (Hmax i Hi) as Hij.
        destruct (Hord x (nth i t d) (nth j t d)) as [_ Htr];
          [left; reflexivity|right; apply nth_In; exact Hi|right; exact Hjin|].
        rewrite (Htr Exy Hij) in E. discriminate. }
      exists 0%nat. rewrite numeric_insertByKey_last_new.
      * split; [simpl; lia|]. split; [reflexivity|]. split.
        -- intros [|i] Hi; [apply Hrefl; left; reflexivity|]. simpl in Hi.
           change (nth (S i) (x :: t) d) with (nth i t d).
           change (nth 0 (x :: t) d) with x.
           assert (In (nth i t d) t) as Hiin by (apply nth_In; lia).
           destruct (Hord (nth i t d) x x) as [[H|H] _];
             [right; exact Hiin|left; reflexivity|left; reflexivity|exact H|].
           rewrite (Hnew _ Hiin) in H. discriminate.
        -- intros [|i] Hi; [lia|]. simpl in Hi.
           change (nth (S i) (x :: t) d) with (nth i t d).
           change (nth 0 (x :: t) d) with x.
           apply Hnew. apply nth_In. lia.
      * intros y Hy. apply (proj1 (numeric_sortPairs_In _ _)) in Hy.
        apply Hnew, Hy.
Qed.

Lemma numeric_getLast_map_snd l d :
  l <> [] ->
  Numeric.getLast A (map snd l) = Some (snd (List.last l d)).
Proof.
  destruct l as [|x t]; [congruence|intros _].
  change (Numeric.getLast A (map snd (x :: t)))
    with (Some (List.last (map snd t) (snd x))).
  rewrite last_map_snd, last_cons_default. reflexivity.
Qed.

Lemma increasing_spec (m : list (Numeric.number A)) (d : Numeric.number A) :
  Numeric.increasing A m = true ->
  forall i j, (i < j < length m)%nat ->
    Numeric.leb A (nth j m d) (nth i m d) = false.
Proof.
  induction m as [|x t IH]; intros H i j Hij; [simpl in Hij; lia|].
  cbn [Numeric.increasing] in H. apply andb_prop in H. destruct H as [Hx Ht].
  destruct j as [|j]; [lia|]. simpl in Hij.
  destruct i as [|i].
  - rewrite forallb_forall in Hx. cbn [nth].
    apply negb_true_iff, Hx, nth_In. lia.
  - cbn [nth]. apply IH; [exact Ht|lia].
Qed.

Variable h : Numeric.Histogram A.

Lemma numeric_indices_seq : Numeric.indices h = seq 1 (Numeric.size h).
Proof. apply sequence_1. Qed.

Lemma numeric_bss_length : length (Numeric.bss h) = Numeric.size h.
Proof.
  unfold Numeric.bss. rewrite length_map, numeric_indices_seq, length_seq.
  reflexivity.
Qed.

Lemma numeric_bss_nth j d :
  (j < Numeric.size h)%nat -> nth j (Numeric.bss h) d = Numeric.bssAt h (S j).
Proof.
  intros Hj. unfold Numeric.bss. rewrite numeric_indices_seq.
  rewrite (nth_indep _ d (Numeric.bssAt h 0))
    by (rewrite length_map, length_seq; exact Hj).
  rewrite map_nth, seq_nth by exact Hj. reflexivity.
Qed.

End NumericFacts.

(** The exact arithmetic is the one of [otsu] above, and in it every list
    of keys is comparable. *)
Lemma otsu_inExact (h : Histogram) : Numeric.otsu (inExact h) = otsu h.
Proof. reflexivity. Qed.

Lemma bssAt_inExact (h : Histogram) (i : nat) :
  Numeric.bssAt (inExact h) i = bssAt h i.
Proof. reflexivity. Qed.

Lemma comparable_exact (keys : list Q) :
  Numeric.comparable Numeric.exact keys = true.
Proof.
  unfold Numeric.comparable. apply forallb_forall. intros x _.
  apply forallb_forall. intros y _. apply andb_true_intro. split.
  - cbn. destruct (Qlt_le_dec y x) as [H|H].
    + apply Qlt_le_weak, Qle_bool_iff in H. rewrite H. apply orb_true_r.
    + apply Qle_bool_iff in H. rewrite H. reflexivity.
  - apply forallb_forall. intros z _. cbn.
    destruct (Qle_bool x y) eqn:E1, (Qle_bool y z) eqn:E2; try reflexivity.
    apply Qle_bool_iff in E1, E2. cbn. apply Qle_bool_iff. lra.
Qed.

(** ** Facts about connected patches *)

Section PatchFacts.

Variable img : EE.Image.
Variable e : bool.

Implicit Types (S T : gset EE.Cell) (p q c : EE.Cell) (v w : Q).

Lemma elem_of_grow v S q :
  q ∈ EE.grow img e v S <->
  q ∈ S \/ exists p, p ∈ S /\ patchStep img e v p q.
Proof.
  unfold EE.grow, patchStep.
  rewrite elem_of_union, elem_of_filter, elem_of_set_bind.
  split.
  - intros [H|[Hv (p & Hp & Hq)]]; [left; exact H|right].
    exists p. rewrite elem_of_list_to_set, list_elem_of_In in Hq. tauto.
  - intros [H|(p & Hp & Hq & Hv)]; [left; exact H|right].
    split; [exact Hv|]. exists p. split; [exact Hp|].
    rewrite elem_of_list_to_set, list_elem_of_In. exact Hq.
Qed.

Lemma grow_subseteq v S : S ⊆ EE.grow img e v S.
Proof. intros q Hq. apply elem_of_grow. left. exact Hq. Qed.

Lemma hasValue_Qeq v w q : v == w -> EE.hasValue img v q = EE.hasValue img w q.
Proof.
  intros Hvw. unfold EE.hasValue. destruct (EE.pixel img q) as [x|]; [|reflexivity].
  destruct (Qeq_bool x v) eqn:E1, (Qeq_bool x w) eqn:E2; try reflexivity.
  - apply Qeq_bool_iff in E1. apply Qeq_bool_neq in E2. rewrite E1 in E2. contradiction.
  - apply Qeq_bool_iff in E2. apply Qeq_bool_neq in E1. rewrite E2 in E1.
    symmetry in Hvw. contradiction.
Qed.

Lemma grow_Qeq v w S : v == w -> EE.grow img e v S = EE.grow img e w S.
Proof.
  intros Hvw. apply set_eq. intros q. rewrite !elem_of_grow. unfold patchStep.
  rewrite (hasValue_Qeq v w q Hvw). reflexivity.
Qed.

Lemma patch_Qeq v w k c : v == w -> EE.patch img e k v c = EE.patch img e k w c.
Proof.
  intros Hvw. unfold EE.patch. induction k as [|k IH]; [reflexivity|].
  simpl. rewrite IH. apply grow_Qeq, Hvw.
Qed.

Lemma patch_start v k c : c ∈ EE.patch img e k v c.
Proof.
  unfold EE.patch. induction k as [|k IH]; simpl.
  - apply elem_of_singleton. reflexivity.
  - apply grow_subseteq, IH.
Qed.

(** Every cell of the explored patch is reached from the start. *)
Lemma patch_reach v k c q :
  q ∈ EE.patch img e k v c -> rtc (patchStep img e v) c q.
Proof.
  unfold EE.patch. revert q. induction k as [|k IH]; simpl; intros q Hq.
  - apply elem_of_singleton in Hq. subst q. apply rtc_refl.
  - apply elem_of_grow in Hq. destruct Hq as [Hq|(p & Hp & Hstep)].
    + apply IH, Hq.
    + eapply rtc_r; [apply IH, Hp|exact Hstep].
Qed.

(** A set that no round enlarges holds everything reached from its cells. *)
Lemma closed_reach v S c q :
  EE.grow img e v S = S -> c ∈ S -> rtc (patchStep img e v) c q -> q ∈ S.
Proof.
  intros Hclosed Hc Hreach. induction Hreach as [c|c r q Hstep _ IH]; [exact Hc|].
  apply IH. rewrite <- Hclosed. apply elem_of_grow. right. exists c. tauto.
Qed.

(** Each round adds a cell, until none is left to add. *)
Lemma patch_growth v k c :
  EE.grow img e v (EE.patch img e k v c) = EE.patch img e k v c \/
  (k + 1 <= base.size (EE.patch img e k v c))%nat.
Proof.
  induction k as [|k IH].
  - right. change (EE.patch img e 0 v c) with ({[c]} : gset EE.Cell).
    rewrite size_singleton. lia.
  - change (EE.patch img e (S k) v c)
      with (EE.grow img e v (EE.patch img e k v c)).
    destruct IH as [Hc|Hsize]; [left; rewrite Hc; exact Hc|].
    destruct (decide (EE.grow img e v (EE.patch img e k v c)
                      = EE.patch img e k v c)) as [Hc|Hne].
    + left. rewrite Hc. exact Hc.
    + right.
      assert (EE.patch img e k v c ⊂ EE.grow img e v (EE.patch img e k v c)) as Hsub.
      { split; [apply grow_subseteq|].
        intros Hback. apply Hne. apply set_eq. intros q. split; [apply Hback|].
        apply grow_subseteq. }
      apply subset_size in Hsub. lia.
Qed.

Lemma neighbours_sym p q :
  In q (EE.neighbours e p) -> In p (EE.neighbours e q).
Proof.
  destruct p as [x y], q as [x' y']. unfold EE.neighbours.
  rewrite !in_app_iff. destruct e; simpl;
    intuition (match goal with
               | H : (_, _) = (_, _) |- _ => injection H as <- <-
               end;
               repeat first [left; f_equal; lia | right]).
Qed.

Lemma reach_hasValue v c q :
  EE.hasValue img v c = true -> rtc (patchStep img e v) c q ->
  EE.hasValue img v q = true.
Proof.
  intros Hc Hreach. induction Hreach as [c|c r q [_ Hr] _ IH]; [exact Hc|].
  apply IH, Hr.
Qed.

Lemma reach_sym v c q :
  EE.hasValue img v c = true -> rtc (patchStep img e v) c q ->
  rtc (patchStep img e v) q c.
Proof.
  intros Hc Hreach. induction Hreach as [c|c r q [Hn Hr] _ IH]; [apply rtc_refl|].
  eapply rtc_r; [apply IH, Hr|]. split; [apply neighbours_sym, Hn|exact Hc].
Qed.

(** Two cells of one patch get the same count; one inequality is enough
    here. *)
Lemma patchCount_reach n v c q :
  EE.hasValue img v c = true -> rtc (patchStep img e v) c q ->
  (EE.patchCount img n e v c <= EE.patchCount img n e v q)%nat.
Proof.
  intros Hc Hreach. unfold EE.patchCount.
  destruct (patch_growth v n q) as [Hclosed|Hsize]; [|lia].
  assert (EE.patch img e n v c ⊆ EE.patch img e n v q) as Hsub.
  { intros x Hx. apply (closed_reach v _ q x Hclosed (patch_start v n q)).
    eapply rtc_trans; [apply reach_sym; eassumption|].
    apply patch_reach with n, Hx. }
  apply subseteq_size in Hsub. lia.
Qed.

End PatchFacts.

(** ** Facts about the pixel operations *)

Section ImageFacts.

Implicit Types (img : EE.Image) (c : EE.Cell) (t v : Q).

Lemma ltb_lt a b : EE.ltb a b = true <-> a < b.
Proof.
  unfold EE.ltb. destruct (Qle_bool b a) eqn:E; simpl.
  - apply Qle_bool_iff in E. split; [discriminate|]. intros H. lra.
  - split; [intros _|reflexivity].
    destruct (Qlt_le_dec a b) as [H|H]; [exact H|].
    apply Qle_bool_iff in H. congruence.
Qed.

Lemma one_neq_zero : (1 : Q) <> 0.
Proof. discriminate. Qed.

Lemma lt_one img t c :
  EE.pixel (EE.lt img t) c = Some 1 <->
  exists v, EE.pixel img c = Some v /\ v < t.
Proof.
  simpl. destruct (EE.pixel img c) as [v|].
  - destruct (EE.ltb v t) eqn:E.
    + apply ltb_lt in E. split; [intros _; exists v; tauto|reflexivity].
    + split; [discriminate|]. intros (w & [= <-] & Hw).
      apply ltb_lt in Hw. congruence.
  - split; [discriminate|]. intros (w & Hw & _). discriminate.
Qed.

Lemma lt_zero img t c :
  EE.pixel (EE.lt img t) c = Some 0 <->
  exists v, EE.pixel img c = Some v /\ t <= v.
Proof.
  simpl. destruct (EE.pixel img c) as [v|].
  - destruct (EE.ltb v t) eqn:E.
    + apply ltb_lt in E. split; [discriminate|].
      intros (w & [= <-] & Hw). lra.
    + split; [intros _; exists v; split; [reflexivity|]|reflexivity].
      destruct (Qlt_le_dec v t) as [H|H]; [|exact H].
      apply ltb_lt in H. congruence.
  - split; [discriminate|]. intros (w & Hw & _). discriminate.
Qed.

Lemma lt_binary img t c v :
  EE.pixel (EE.lt img t) c = Some v -> v = 0 \/ v = 1.
Proof.
  simpl. destruct (EE.pixel img c) as [w|]; [|discriminate].
  destruct (EE.ltb w t); intros [= <-]; tauto.
Qed.

Lemma lt_masked img t c :
  EE.pixel (EE.lt img t) c = None <-> EE.pixel img c = None.
Proof.
  simpl. destruct (EE.pixel img c); split; congruence.
Qed.

Lemma gte_one img t c :
  EE.pixel (EE.gte img t) c = Some 1 <->
  exists v, EE.pixel img c = Some v /\ t <= v.
Proof.
  simpl. destruct (EE.pixel img c) as [v|].
  - destruct (Qle_bool t v) eqn:E.
    + apply Qle_bool_iff in E. split; [intros _; exists v; tauto|reflexivity].
    + split; [discriminate|]. intros (w & [= <-] & Hw).
      apply Qle_bool_iff in Hw. congruence.
  - split; [discriminate|]. intros (w & Hw & _). discriminate.
Qed.

Lemma gte_binary img t c v :
  EE.pixel (EE.gte img t) c = Some v -> v = 0 \/ v = 1.
Proof.
  simpl. destruct (EE.pixel img c) as [w|]; [|discriminate].
  destruct (Qle_bool t w); intros [= <-]; tauto.
Qed.

Lemma select_rename img name :
  EE.select (EE.rename img name) name = Some (EE.rename img name).
Proof. unfold EE.select. simpl. rewrite String.eqb_refl. reflexivity. Qed.

Lemma hasValue_self img c v :
  EE.pixel img c = Some v -> EE.hasValue img v c = true.
Proof. intros H. unfold EE.hasValue. rewrite H. apply Qeq_bool_refl. Qed.

Lemma hasValue_pixel img c v :
  EE.hasValue img v c = true -> exists w, EE.pixel img c = Some w /\ w == v.
Proof.
  unfold EE.hasValue. destruct (EE.pixel img c) as [w|]; [|discriminate].
  intros H. apply Qeq_bool_iff in H. exists w. tauto.
Qed.

(** The cells that [updateMask(self)] keeps, for an image of zeros and
    ones: the ones. *)
Lemma selfMasked_binary img c :
  (forall v, EE.pixel img c = Some v -> v = 0 \/ v = 1) ->
  EE.pixel (EE.updateMask img img) c
  = if EE.nonZero img c then Some 1 else None.
Proof.
  intros Hbin. unfold EE.nonZero. simpl.
  destruct (EE.pixel img c) as [v|] eqn:E.
  - destruct (Hbin v eq_refl) as [-> | ->]; reflexivity.
  - reflexivity.
Qed.

Lemma nonZero_binary img c :
  (forall v, EE.pixel img c = Some v -> v = 0 \/ v = 1) ->
  EE.nonZero img c = true <-> EE.pixel img c = Some 1.
Proof.
  intros Hbin. unfold EE.nonZero. destruct (EE.pixel img c) as [v|] eqn:E.
  - destruct (Hbin v eq_refl) as [-> | ->]; simpl; split; congruence.
  - split; discriminate.
Qed.

End ImageFacts.

(** ** Facts about the edge filter *)

Section EdgeFilterFacts.

Variable cfg : Params.

Lemma edges_one canny c :
  EE.pixel (edges cfg canny) c = Some 1 <->
  exists v, EE.pixel (counted cfg canny) c = Some v /\
    edgeLength cfg <=
    inject_Z (Z.of_nat (EE.patchCount (counted cfg canny) (connectedPixels cfg) true v c)).
Proof.
  unfold edges. rewrite gte_one. unfold connected.
  change (EE.lt (EE.updateMask canny canny) (cannyLt cfg)) with (counted cfg canny).
  cbn [EE.connectedPixelCount EE.pixel].
  destruct (EE.pixel (counted cfg canny) c) as [v|].
  - split.
    + intros (w & [= <-] & Hw). exists v. tauto.
    + intros (w & [= <-] & Hw). eexists. split; [reflexivity|exact Hw].
  - split; intros (w & Hw & _); discriminate.
Qed.

Lemma edges_binary canny c v :
  EE.pixel (edges cfg canny) c = Some v -> v = 0 \/ v = 1.
Proof. apply gte_binary. Qed.

(** A kept cell keeps its whole patch with it. *)
Lemma kept_reach canny c x v :
  EE.pixel (counted cfg canny) c = Some v ->
  EE.pixel (edges cfg canny) c = Some 1 ->
  rtc (patchStep (counted cfg canny) true v) c x ->
  EE.pixel (edges cfg canny) x = Some 1.
Proof.
  intros Hv Hkept Hreach.
  apply edges_one in Hkept. destruct Hkept as (v' & Hv' & HL).
  rewrite Hv in Hv'. injection Hv' as <-.
  pose proof (hasValue_self _ _ _ Hv) as Hc.
  destruct (hasValue_pixel _ _ _ (reach_hasValue _ _ _ _ _ Hc Hreach))
    as (w & Hw & Hwv).
  apply edges_one. exists w. split; [exact Hw|].
  unfold EE.patchCount in *. rewrite (patch_Qeq _ _ w v) by exact Hwv.
  eapply Qle_trans; [exact HL|].
  rewrite <- Zle_Qle. apply inj_le.
  apply (patchCount_reach _ _ (connectedPixels cfg) _ _ _ Hc Hreach).
Qed.

(** After a first application the counted image holds one value, on the
    kept cells. *)
Lemma counted_edges canny c :
  EE.pixel (counted cfg (edges cfg canny)) c
  = if EE.nonZero (edges cfg canny) c
    then Some (if EE.ltb 1 (cannyLt cfg) then 1 else 0)
    else None.
Proof.
  unfold counted. cbn [EE.lt EE.pixel].
  change (match EE.pixel (edges cfg canny) c with
          | Some v =>
              match EE.pixel (edges cfg canny) c with
              | Some m => if Qeq_bool m 0 then None else Some v
              | None => None
              end
          | None => None
          end)
    with (EE.pixel (EE.updateMask (edges cfg canny) (edges cfg canny)) c).
  rewrite selfMasked_binary by apply edges_binary.
  destruct (EE.nonZero (edges cfg canny) c); reflexivity.
Qed.

Lemma patch_kept canny c v k x :
  EE.pixel (counted cfg canny) c = Some v ->
  EE.pixel (edges cfg canny) c = Some 1 ->
  x ∈ EE.patch (counted cfg canny) true k v c ->
  x ∈ EE.patch (counted cfg (edges cfg canny)) true k
        (if EE.ltb 1 (cannyLt cfg) then 1 else 0) c.
Proof.
  intros Hv Hkept. revert x. induction k as [|k IH]; intros x Hx; [exact Hx|].
  change (EE.patch ?i true (S k) ?u c)
    with (EE.grow i true u (EE.patch i true k u c)) in *.
  apply elem_of_grow in Hx. apply elem_of_grow.
  destruct Hx as [Hx|(p & Hp & Hn & Hval)]; [left; apply IH, Hx|right].
  exists p. split; [apply IH, Hp|]. split; [exact Hn|].
  apply hasValue_self. rewrite counted_edges.
  rewrite (proj2 (nonZero_binary _ x (edges_binary canny x))); [reflexivity|].
  apply (kept_reach canny c x v Hv Hkept).
  eapply rtc_r; [apply patch_reach with k, Hp|]. split; assumption.
Qed.

End EdgeFilterFacts.



(** ** Facts about the distance transform and the buffer *)

Section DistanceFacts.

Lemma least_nonneg {A} (f : A -> option Z) (l : list A) d :
  (forall x d', f x = Some d' -> (0 <= d')%Z) ->
  EE.least f l = Some d -> (0 <= d)%Z.
Proof.
  intros Hf. revert d. induction l as [|x l IH]; intros d; [discriminate|].
  simpl. destruct (f x) as [dx|] eqn:Ex; [|apply IH].
  specialize (Hf x dx Ex).
  destruct (EE.least f l) as [dl|]; simpl; intros [= <-]; [|exact Hf].
  specialize (IH dl eq_refl). lia.
Qed.

Lemma least_le {A} (f : A -> option Z) (l : list A) x d :
  In x l -> f x = Some d ->
  exists d', EE.least f l = Some d' /\ (d' <= d)%Z.
Proof.
  induction l as [|y l IH]; intros Hin Hx; [destruct Hin|].
  simpl. destruct Hin as [->|Hin].
  - rewrite Hx. destruct (EE.least f l) as [dl|]; simpl; eexists;
      (split; [reflexivity|lia]).
  - destruct (IH Hin Hx) as (dl & -> & Hle).
    destruct (f y) as [dy|]; simpl; eexists; (split; [reflexivity|lia]).
Qed.

Lemma least_attained {A} (f : A -> option Z) (l : list A) d :
  EE.least f l = Some d -> exists x, In x l /\ f x = Some d.
Proof.
  revert d. induction l as [|y l IH]; intros d; [discriminate|].
  simpl. destruct (f y) as [dy|] eqn:Ey.
  - destruct (EE.least f l) as [dl|]; simpl; intros [= <-].
    + destruct (Z.min_spec dy dl) as [[_ ->]|[_ ->]].
      * exists y. tauto.
      * destruct (IH dl eq_refl) as (x & Hx & Hfx). exists x. tauto.
    + exists y. tauto.
  - intros H. destruct (IH d H) as (x & Hx & Hfx). exists x. simpl. tauto.
Qed.

Lemma In_zrange z start len :
  In z (EE.zrange start len) <-> (start <= z < start + Z.of_nat len)%Z.
Proof.
  revert start. induction len as [|len IH]; intros start; simpl; [lia|].
  rewrite IH. lia.
Qed.

Lemma In_offsets z n :
  In z (EE.offsets n) <-> (- Z.of_nat n <= z <= Z.of_nat n)%Z.
Proof. unfold EE.offsets. rewrite In_zrange. lia. Qed.

Lemma squaredDistance_nonneg c q : (0 <= EE.squaredDistance c q)%Z.
Proof.
  unfold EE.squaredDistance.
  pose proof (Z.square_nonneg (fst c - fst q)).
  pose proof (Z.square_nonneg (snd c - snd q)). lia.
Qed.

Lemma nearest_nonneg img n c d :
  EE.nearest img n c = Some d -> (0 <= d)%Z.
Proof.
  unfold EE.nearest. apply least_nonneg. intros dx d'.
  apply least_nonneg. intros dy d''.
  destruct (EE.nonZero img _); [|discriminate].
  intros [= <-]. apply squaredDistance_nonneg.
Qed.

(** A non-zero cell of the window bounds the transform from above. *)
Lemma nearest_le img n c q :
  (- Z.of_nat n <= fst q - fst c <= Z.of_nat n)%Z ->
  (- Z.of_nat n <= snd q - snd c <= Z.of_nat n)%Z ->
  EE.nonZero img q = true ->
  exists d, EE.nearest img n c = Some d /\ (d <= EE.squaredDistance c q)%Z.
Proof.
  intros Hx Hy Hq. unfold EE.nearest.
  assert (q = (fst c + (fst q - fst c), snd c + (snd q - snd c))%Z) as Eq
    by (destruct q; simpl; f_equal; lia).
  destruct (least_le
              (fun dy => let q' := (fst c + (fst q - fst c), snd c + dy)%Z in
                         if EE.nonZero img q'
                         then Some (EE.squaredDistance c q') else None)
              (EE.offsets n) (snd q - snd c)%Z (EE.squaredDistance c q))
    as (d1 & Hd1 & Hle1).
  { apply In_offsets, Hy. }
  { cbv zeta. rewrite <- Eq, Hq. reflexivity. }
  destruct (least_le
              (fun dx => EE.least
                 (fun dy => let q' := (fst c + dx, snd c + dy)%Z in
                            if EE.nonZero img q'
                            then Some (EE.squaredDistance c q') else None)
                 (EE.offsets n))
              (EE.offsets n) (fst q - fst c)%Z d1)
    as (d2 & Hd2 & Hle2).
  { apply In_offsets, Hx. }
  { exact Hd1. }
  exists d2. split; [exact Hd2|lia].
Qed.

(** The transform is the distance to some non-zero cell. *)
Lemma nearest_attained img n c d :
  EE.nearest img n c = Some d ->
  exists q, EE.nonZero img q = true /\ d = EE.squaredDistance c q.
Proof.
  unfold EE.nearest. intros H.
  apply least_attained in H. destruct H as (dx & _ & H).
  apply least_attained in H. destruct H as (dy & _ & H).
  cbv zeta in H.
  destruct (EE.nonZero img (fst c + dx, snd c + dy)%Z) eqn:E; [|discriminate].
  injection H as <-. eexists. split; [exact E|reflexivity].
Qed.

Lemma fastDistanceTransform_nonneg img c v :
  EE.pixel (EE.fastDistanceTransform img) c = Some v -> 0 <= v.
Proof.
  simpl. destruct (EE.nearest img EE.defaultNeighborhood c) as [d|] eqn:E;
    [|discriminate].
  intros [= <-]. apply nearest_nonneg in E.
  change 0 with (inject_Z 0). rewrite <- Zle_Qle. exact E.
Qed.

Lemma divide_mono a b s : 0 <= s -> a <= b -> EE.divide a s <= EE.divide b s.
Proof.
  intros Hs Hab. unfold EE.divide.
  destruct (Qeq_bool s 0) eqn:E; [apply Qle_refl|].
  apply Qeq_bool_neq in E. unfold Qdiv.
  apply Qmult_le_compat_r; [exact Hab|]. apply Qinv_le_0_compat, Hs.
Qed.

Lemma divide_zero_l a s : a == 0 -> EE.divide a s == 0.
Proof.
  intros Ha. unfold EE.divide. destruct (Qeq_bool s 0); [reflexivity|].
  rewrite Ha. unfold Qdiv. ring.
Qed.

(** Below a threshold of zero there is no distance. *)
Lemma lt_fastDistanceTransform_zero img t c :
  t == 0 ->
  EE.pixel (EE.lt (EE.fastDistanceTransform img) t) c
  = match EE.pixel (EE.fastDistanceTransform img) c with
    | Some _ => Some 0
    | None => None
    end.
Proof.
  intros Ht. cbn [EE.lt EE.pixel].
  destruct (EE.pixel (EE.fastDistanceTransform img) c) as [v|] eqn:E;
    [|reflexivity].
  apply fastDistanceTransform_nonneg in E.
  destruct (EE.ltb v t) eqn:El; [|reflexivity].
  apply ltb_lt in El. lra.
Qed.

(** The edge filter only keeps cells of its input that are not zero. *)
Lemma nonZero_edges cfg canny q :
  EE.nonZero (edges cfg canny) q = true -> EE.nonZero canny q = true.
Proof.
  unfold EE.nonZero, edges, connected. cbn [EE.gte EE.connectedPixelCount EE.lt
    EE.updateMask EE.pixel].
  destruct (EE.pixel canny q) as [v|]; [|discriminate].
  destruct (Qeq_bool v 0); [discriminate|reflexivity].
Qed.

End DistanceFacts.

(** ** The thresholder *)

Section ThresholderTheorems.

Lemma twoBuckets_increasing : increasingMeans twoBuckets.
Proof.
  intros i j Hij. change (size twoBuckets) with 2%nat in Hij.
  assert (i = 0%nat /\ j = 1%nat) as [-> ->] by lia. reflexivity.
Qed.

Lemma twoBuckets_twoNonEmpty : twoNonEmpty twoBuckets.
Proof.
  exists 0%nat, 1%nat. change (size twoBuckets) with 2%nat.
  repeat split; lia.
Qed.

(** C1, as the code has it, in two parts.

    In whatever arithmetic the script computes (binary64 on Earth Engine),
    for a histogram with one count per mean, at least one bucket, strictly
    increasing means, and values of [bss] that compare with one another
    (none is NaN): [otsu] evaluates its expression at the split indices 1
    to N, N included (class A of the split [i] is the buckets before [i],
    class B the buckets from [i] on), and returns the mean of the bucket
    just before the split, [means[k-1]], for the last split [k] of 1..N at
    which the computed value is greatest. No later split reaches that
    value, every other split that reaches it has a lower mean, and the
    value returned is a bucket mean of the histogram.

    In exact arithmetic the expression evaluated at a split with counts on
    both sides is the BSS(k) of the specification, and that is the
    between-class variance of the two classes, each with the count and the
    mean of its own buckets. *)
Theorem otsu_returns_last_greatest :
  (forall (A : Numeric.Arithmetic) (h : Numeric.Histogram A),
     length (Numeric.counts h) = length (Numeric.means h) ->
     (0 < Numeric.size h)%nat ->
     Numeric.comparable A (Numeric.bss h) = true ->
     Numeric.increasing A (Numeric.means h) = true ->
     Numeric.indices h = seq 1 (Numeric.size h) /\
     length (Numeric.bss h) = Numeric.size h /\
     exists k, (1 <= k <= Numeric.size h)%nat /\
       Numeric.otsu h
       = Some (nth (k - 1) (Numeric.means h) (Numeric.zero A)) /\
       In (nth (k - 1) (Numeric.means h) (Numeric.zero A)) (Numeric.means h) /\
       (forall k', (1 <= k' <= Numeric.size h)%nat ->
          Numeric.leb A (Numeric.bssAt h k') (Numeric.bssAt h k) = true) /\
       (forall k', (k < k' <= Numeric.size h)%nat ->
          Numeric.leb A (Numeric.bssAt h k) (Numeric.bssAt h k') = false) /\
       (forall k', (1 <= k' <= Numeric.size h)%nat -> k' <> k ->
          Numeric.leb A (Numeric.bssAt h k) (Numeric.bssAt h k') = true ->
          Numeric.leb A (nth (k - 1) (Numeric.means h) (Numeric.zero A))
            (nth (k' - 1) (Numeric.means h) (Numeric.zero A)) = false)) /\
  (forall (h : Histogram) (k : nat),
     0 < Spec.classCount (firstn k (histogram h)) ->
     0 < Spec.classCount (skipn k (histogram h)) ->
     Numeric.bssAt (inExact h) k == Spec.BSS h k /\
     Numeric.bssAt (inExact h) k == Spec.betweenClass h k).
Proof.
  split.
  2: { intros h k HA HB. split.
       - exact (bssAt_Spec_BSS h k HA HB).
       - exact (bssAt_betweenClass h k HA HB). }
  intros A h Hlen Hpos Hcmp Hinc.
  split; [apply numeric_indices_seq|]. split; [apply numeric_bss_length|].
  set (z := Numeric.zero A).
  assert (length (combine (Numeric.bss h) (Numeric.means h)) = Numeric.size h)
    as Hcl.
  { rewrite length_combine, numeric_bss_length. unfold Numeric.size. lia. }
  destruct (numeric_sortPairs_last A (combine (Numeric.bss h) (Numeric.means h))
              (z, z)) as (j & Hj & Hlast & Hmax & Hstrict).
  { intros E. rewrite E in Hcl. simpl in Hcl. lia. }
  { intros a b c Ha Hb Hc.
    destruct a as [a1 a2], b as [b1 b2], c as [c1 c2].
    apply in_combine_l in Ha, Hb, Hc.
    exact (comparable_spec A _ Hcmp a1 b1 c1 Ha Hb Hc). }
  rewrite Hcl in *.
  assert (forall i, (i < Numeric.size h)%nat ->
            nth i (combine (Numeric.bss h) (Numeric.means h)) (z, z)
            = (Numeric.bssAt h (S i), nth i (Numeric.means h) z)) as Hnth.
  { intros i Hi.
    rewrite combine_nth by (rewrite numeric_bss_length; reflexivity).
    rewrite numeric_bss_nth by exact Hi. reflexivity. }
  exists (S j). split; [lia|]. split; [|split; [|split; [|split]]].
  - unfold Numeric.otsu. rewrite Hlen, Nat.eqb_refl. cbn [negb].
    unfold Numeric.sort. rewrite (numeric_getLast_map_snd A _ (z, z)).
    + rewrite Hlast, Hnth by exact Hj. simpl. rewrite Nat.sub_0_r. reflexivity.
    + intros E. apply (f_equal (@length _)) in E.
      rewrite numeric_sortPairs_length, Hcl in E. simpl in E. lia.
  - apply nth_In. fold (Numeric.size h). lia.
  - intros [|i] Hi; [lia|]. specialize (Hmax i ltac:(lia)).
    rewrite !Hnth in Hmax by lia. exact Hmax.
  - intros [|i] Hi; [lia|]. specialize (Hstrict i ltac:(lia)).
    rewrite !Hnth in Hstrict by lia. exact Hstrict.
  - intros [|i] Hi Hne Hge; [lia|].
    destruct (Nat.lt_ge_cases j i) as [Hlt|Hle].
    + specialize (Hstrict i ltac:(lia)).
      rewrite !Hnth in Hstrict by lia. cbn [fst] in Hstrict. congruence.
    + replace (S j - 1)%nat with j by lia. replace (S i - 1)%nat with i by lia.
      apply (increasing_spec A _ z Hinc). fold (Numeric.size h). lia.
Qed.

(** In binary64, on three buckets with the middle one empty: the splits 1
    and 2 have the same value, and the later one gives the threshold. In
    exact arithmetic, on two peaks: the value at the split 2 is the
    between-class variance of the two halves. *)
Lemma otsu_returns_last_greatest_witness :
  (Numeric.indices emptyMiddle64 = seq 1 (Numeric.size emptyMiddle64) /\
   length (Numeric.bss emptyMiddle64) = Numeric.size emptyMiddle64 /\
   exists k, (1 <= k <= Numeric.size emptyMiddle64)%nat /\
     Numeric.otsu emptyMiddle64
     = Some (nth (k - 1) (Numeric.means emptyMiddle64) 0%float) /\
     In (nth (k - 1) (Numeric.means emptyMiddle64) 0%float)
        (Numeric.means emptyMiddle64) /\
     (forall k', (1 <= k' <= Numeric.size emptyMiddle64)%nat ->
        PrimFloat.leb (Numeric.bssAt emptyMiddle64 k')
          (Numeric.bssAt emptyMiddle64 k) = true) /\
     (forall k', (k < k' <= Numeric.size emptyMiddle64)%nat ->
        PrimFloat.leb (Numeric.bssAt emptyMiddle64 k)
          (Numeric.bssAt emptyMiddle64 k') = false) /\
     (forall k', (1 <= k' <= Numeric.size emptyMiddle64)%nat -> k' <> k ->
        PrimFloat.leb (Numeric.bssAt emptyMiddle64 k)
          (Numeric.bssAt emptyMiddle64 k') = true ->
        PrimFloat.leb (nth (k - 1) (Numeric.means emptyMiddle64) 0%float)
          (nth (k' - 1) (Numeric.means emptyMiddle64) 0%float) = false)) /\
  Numeric.bss emptyMiddle64 = [2; 2; 0]%float /\
  Numeric.otsu emptyMiddle64 = Some 1%float /\
  0 < Spec.classCount (firstn 2 (histogram twoPeaks)) /\
  0 < Spec.classCount (skipn 2 (histogram twoPeaks)) /\
  Numeric.bssAt (inExact twoPeaks) 2 == Spec.BSS twoPeaks 2 /\
  Numeric.bssAt (inExact twoPeaks) 2 == Spec.betweenClass twoPeaks 2.
Proof.
  split; [|split; [|split; [|split; [|split]]]].
  - apply (proj1 otsu_returns_last_greatest Numeric.binary64 emptyMiddle64).
    + reflexivity.
    + vm_compute. lia.
    + vm_compute. reflexivity.
    + vm_compute. reflexivity.
  - vm_compute. reflexivity.
  - vm_compute. reflexivity.
  - reflexivity.
  - reflexivity.
  - apply (proj2 otsu_returns_last_greatest twoPeaks 2%nat); reflexivity.
Defined.

(** Rounding decides between splits of equal value. On the symmetric
    histogram the splits 1 and 2 have the same value in exact arithmetic,
    and the later one gives -15; in binary64 the value at the split 1 is
    the greater by rounding, and the threshold is -20. *)
Example otsu_symmetric :
  bssAt symmetric 1 == bssAt symmetric 2 /\
  otsu symmetric = Some (-15) /\
  PrimFloat.leb (Numeric.bssAt symmetric64 1) (Numeric.bssAt symmetric64 2)
  = false /\
  Numeric.otsu symmetric64 = Some (-20)%float.
Proof. repeat split; vm_compute; reflexivity. Qed.

(** In binary64 the last split can give the threshold: with two means one
    unit in the last place apart, every value of [bss] rounds to 0 and the
    last mean comes back. *)
Example otsu_adjacentMeans64 :
  Numeric.bss adjacentMeans64 = [0; 0]%float /\
  Numeric.otsu adjacentMeans64 = Some (1 + 0x1p-52)%float.
Proof. split; vm_compute; reflexivity. Qed.

(** C1 as the specification states it fails on two buckets of equal mass:
    the code evaluates the split indices 1 and 2, not 1 alone, and returns
    the mean before the best split, 0, where the bucket mean at the split
    index is 10; in binary64 as in exact arithmetic. *)
Lemma otsu_split_index_counterexample :
  twoNonEmpty twoBuckets /\ increasingMeans twoBuckets /\
  indices twoBuckets = [1; 2]%nat /\ Spec.splits twoBuckets = [1]%nat /\
  otsu twoBuckets = Some 0 /\ Spec.otsu twoBuckets = Some 10 /\
  otsu twoBuckets <> Spec.otsu twoBuckets /\
  Numeric.indices twoBuckets64 = [1; 2]%nat /\
  Numeric.otsu twoBuckets64 = Some 0%float.
Proof.
  split; [exact twoBuckets_twoNonEmpty|].
  split; [exact twoBuckets_increasing|].
  repeat split; try reflexivity. vm_compute. discriminate.
Qed.

(** C2, as the code has it. With all the mass in one bucket [otsu] raises
    nothing: every between-class variance is zero and the mean of the last
    bucket comes back. *)
Theorem otsu_single_bucket (h : Histogram) :
  sameLength h -> singleBucket h ->
  (forall i, bssAt h i == 0) /\
  otsu h = Some (nth (size h - 1) (means h) 0).
Proof.
  intros Hlen Hsingle.
  assert (forall i, bssAt h i == 0) as Hzero
    by (intros i; apply bssAt_singleBucket; assumption).
  split; [exact Hzero|].
  destruct Hsingle as (j & Hj & _).
  destruct (otsu_last_maximum h Hlen) as (k & Hk & Hotsu & _ & Hstrict);
    [lia|].
  destruct (Nat.eq_dec k (size h)) as [->|Hne]; [exact Hotsu|].
  specialize (Hstrict (size h) ltac:(lia)).
  rewrite (Hzero (size h)), (Hzero k) in Hstrict. lra.
Qed.

Lemma otsu_single_bucket_witness :
  (forall i, bssAt oneBucket i == 0) /\
  otsu oneBucket = Some (nth (size oneBucket - 1) (means oneBucket) 0).
Proof.
  apply (otsu_single_bucket oneBucket).
  - reflexivity.
  - exists 1%nat. change (size oneBucket) with 3%nat. split; [lia|].
    intros i Hi Hne. assert (i = 0%nat \/ i = 2%nat) as [-> | ->] by lia;
      reflexivity.
Defined.

(** C2 as stated fails: the histogram with its five samples in the middle
    bucket gets the threshold 3, not an error. *)
Lemma otsu_single_bucket_counterexample :
  singleBucket oneBucket /\ otsu oneBucket = Some 3 /\ otsu oneBucket <> None.
Proof.
  split; [|split; [reflexivity|discriminate]].
  exists 1%nat. change (size oneBucket) with 3%nat. split; [lia|].
  intros i Hi Hne. assert (i = 0%nat \/ i = 2%nat) as [-> | ->] by lia;
    reflexivity.
Qed.

(** C10, as the code has it. The split indices are 1 to N, both included.
    At the last of them class A is the whole histogram: the count of class
    B is zero and the mean of class B is [divide] by that zero, with no
    test in between. [divide] answers 0 there, so the mean of class B is 0,
    the mean of class A is the mean of the histogram, and the value at the
    split N is 0: a number like the others, the last entry of [bss], which
    takes part in the sort. *)
Theorem bss_last_index_is_zero (h : Histogram) :
  sameLength h -> (0 < size h)%nat ->
  indices h = seq 1 (size h) /\
  List.last (indices h) 0%nat = size h /\
  bCount h (size h) == 0 /\
  bMean h (size h) = 0 /\
  aMean h (size h) = mean h /\
  bssAt h (size h) == 0 /\
  length (bss h) = size h /\
  nth (size h - 1) (bss h) 0 = bssAt h (size h).
Proof.
  intros Hlen Hpos. pose proof (bCount_size h Hlen) as Hb.
  split; [apply indices_seq|].
  split; [|split; [exact Hb|split; [|split; [|split; [|split]]]]].
  - rewrite indices_seq. destruct (size h) as [|n]; [lia|].
    rewrite seq_S. apply last_last.
  - unfold bMean. apply divide_zero. exact Hb.
  - apply aMean_size. exact Hlen.
  - apply bssAt_size. exact Hlen.
  - apply bss_length.
  - rewrite bss_nth by lia. f_equal. lia.
Qed.

Lemma bss_last_index_is_zero_witness :
  indices twoPeaks = seq 1 (size twoPeaks) /\
  List.last (indices twoPeaks) 0%nat = size twoPeaks /\
  bCount twoPeaks (size twoPeaks) == 0 /\
  bMean twoPeaks (size twoPeaks) = 0 /\
  aMean twoPeaks (size twoPeaks) = mean twoPeaks /\
  bssAt twoPeaks (size twoPeaks) == 0 /\
  length (bss twoPeaks) = size twoPeaks /\
  nth (size twoPeaks - 1) (bss twoPeaks) 0 = bssAt twoPeaks (size twoPeaks).
Proof.
  apply (bss_last_index_is_zero twoPeaks).
  - reflexivity.
  - change (size twoPeaks) with 4%nat. lia.
Defined.

(** C10 as stated fails: on two buckets of equal mass the division by the
    zero count of class B at the split 2 has a result, 0, and so has the
    second entry of [bss], in exact arithmetic and in binary64; nothing is
    left undefined. *)
Lemma bss_last_index_counterexample :
  indices twoBuckets = [1; 2]%nat /\
  bCount twoBuckets 2 == 0 /\
  bMean twoBuckets 2 = 0 /\
  length (bss twoBuckets) = 2%nat /\
  nth 0 (bss twoBuckets) 0 == 50 /\
  nth 1 (bss twoBuckets) 1 == 0 /\
  Numeric.bMean twoBuckets64 2 = 0%float /\
  Numeric.bss twoBuckets64 = [50; 0]%float.
Proof. repeat split; reflexivity. Qed.

(** Scenario A of the specification, on four buckets: two peaks of equal
    mass at -20 and -5. The best split is in the middle and the mean just
    below it comes back. *)
Example otsu_twoPeaks :
  otsu twoPeaks = Some (-15) /\ Spec.otsu twoPeaks = Some (-10) /\
  bssAt twoPeaks 1 == 270 /\ bssAt twoPeaks 2 == 625 # 2 /\
  bssAt twoPeaks 3 == 270 /\ bssAt twoPeaks 4 == 0.
Proof. repeat split; reflexivity. Qed.

End ThresholderTheorems.

(** ** The masks *)

Section MaskTheorems.

(** C3. Whatever the composite and the threshold, the global and the
    adaptive water mask are the image that holds 1 exactly in the cells
    whose backscatter is strictly below the threshold and 0 in the other
    cells with data; a cell without data has none in the mask either. *)
Theorem water_mask_below_threshold
    (cfg : Params) (composite : EE.Image) (threshold : Q) :
  exists mask,
    globalWater cfg composite threshold = Some mask /\
    localWater cfg composite threshold = Some mask /\
    forall c,
      (EE.pixel mask c = Some 1 <->
         exists v, EE.pixel composite c = Some v /\ v < threshold) /\
      (EE.pixel mask c = Some 0 <->
         exists v, EE.pixel composite c = Some v /\ threshold <= v) /\
      (forall v, EE.pixel mask c = Some v -> v = 0 \/ v = 1) /\
      (EE.pixel mask c = None <-> EE.pixel composite c = None).
Proof.
  exists (EE.lt (s1Mosaic cfg composite) threshold).
  unfold globalWater, localWater, s1Mosaic. rewrite select_rename.
  split; [reflexivity|]. split; [reflexivity|]. intros c.
  split; [apply (lt_one (EE.rename composite (band cfg)))|].
  split; [apply (lt_zero (EE.rename composite (band cfg)))|].
  split; [apply lt_binary|].
  apply (lt_masked (EE.rename composite (band cfg))).
Qed.

Lemma water_mask_below_threshold_witness :
  exists mask,
    globalWater defaults twoCells (-12) = Some mask /\
    localWater defaults twoCells (-12) = Some mask /\
    forall c,
      (EE.pixel mask c = Some 1 <->
         exists v, EE.pixel twoCells c = Some v /\ v < -12) /\
      (EE.pixel mask c = Some 0 <->
         exists v, EE.pixel twoCells c = Some v /\ -12 <= v) /\
      (forall v, EE.pixel mask c = Some v -> v = 0 \/ v = 1) /\
      (EE.pixel mask c = None <-> EE.pixel twoCells c = None).
Proof. exact (water_mask_below_threshold defaults twoCells (-12)). Defined.

(** C9. The preliminary classification handed to the edge detector holds,
    cell by cell, what the global water mask holds: it is that mask under
    the band name ['binary']. *)
Theorem binary_is_globalWater
    (cfg : Params) (composite : EE.Image) (globalThreshold : Q) :
  exists water,
    globalWater cfg composite globalThreshold = Some water /\
    binary cfg composite globalThreshold = Some (EE.rename water "binary") /\
    forall c, EE.pixel (EE.rename water "binary") c = EE.pixel water c.
Proof.
  exists (EE.lt (s1Mosaic cfg composite) globalThreshold).
  unfold globalWater, binary, initialThreshold, s1Mosaic.
  rewrite select_rename. repeat split.
Qed.

End MaskTheorems.

(** ** The edge filter *)

Section EdgeFilterTheorems.

Lemma edges_kept_again (cfg : Params) (canny : EE.Image) (c : EE.Cell) :
  EE.pixel (edges cfg canny) c = Some 1 ->
  EE.pixel (edges cfg (edges cfg canny)) c = Some 1.
Proof.
  intros Hkept.
  pose proof Hkept as H1. apply edges_one in H1.
  destruct H1 as (v & Hv & HL).
  apply edges_one. eexists. split.
  - rewrite counted_edges.
    rewrite (proj2 (nonZero_binary _ c (edges_binary cfg canny c)) Hkept).
    reflexivity.
  - eapply Qle_trans; [exact HL|].
    rewrite <- Zle_Qle. apply inj_le. unfold EE.patchCount.
    assert (EE.patch (counted cfg canny) true (connectedPixels cfg) v c
            ⊆ EE.patch (counted cfg (edges cfg canny)) true
                (connectedPixels cfg)
                (if EE.ltb 1 (cannyLt cfg) then 1 else 0) c) as Hsub.
    { intros x Hx. apply (patch_kept cfg canny c v _ x Hv Hkept Hx). }
    apply subseteq_size in Hsub. lia.
Qed.

(** C7, as the code has it. Filtering the filtered edges again, with the
    same parameters, keeps the same cells: a cell holds 1 after two
    applications exactly when it holds 1 after one. The two images are not
    the same: the cells of the removed patches, which hold 0 after one
    application, hold nothing after two, since the filter masks the zero
    cells of its input. *)
Theorem edges_idempotent (cfg : Params) (canny : EE.Image) (c : EE.Cell) :
  (EE.pixel (edges cfg (edges cfg canny)) c = Some 1 <->
   EE.pixel (edges cfg canny) c = Some 1) /\
  EE.pixel (edges cfg (edges cfg canny)) c
  = (if EE.nonZero (edges cfg canny) c then Some 1 else None).
Proof.
  pose proof (nonZero_binary _ c (edges_binary cfg canny c)) as Hnz.
  destruct (EE.nonZero (edges cfg canny) c) eqn:E.
  - pose proof (edges_kept_again cfg canny c (proj1 Hnz eq_refl)) as H2.
    split; [|exact H2]. split; intros _; [apply Hnz; reflexivity|exact H2].
  - assert (EE.pixel (edges cfg (edges cfg canny)) c = None) as H2.
    { unfold edges at 1. unfold connected.
      change (EE.lt (EE.updateMask (edges cfg canny) (edges cfg canny)) (cannyLt cfg))
        with (counted cfg (edges cfg canny)).
      cbn [EE.gte EE.connectedPixelCount EE.pixel].
      rewrite counted_edges, E. reflexivity. }
    split; [|exact H2]. rewrite H2. split; [discriminate|].
    intros H. apply Hnz in H. discriminate.
Qed.

(** C7 as stated fails: on a straight edge of five cells, shorter than the
    minimum length 25, one application gives the image that holds 0 at
    the cell (2, 0) and two applications give the image that holds no data
    there. *)
Lemma edges_twice_counterexample :
  EE.pixel (edges defaults (straightEdge 5)) (2, 0)%Z = Some 0 /\
  EE.pixel (edges defaults (edges defaults (straightEdge 5))) (2, 0)%Z = None /\
  EE.pixel (edges defaults (edges defaults (straightEdge 5))) (2, 0)%Z
  <> EE.pixel (edges defaults (straightEdge 5)) (2, 0)%Z.
Proof.
  assert (EE.pixel (edges defaults (straightEdge 5)) (2, 0)%Z = Some 0) as H1
    by (vm_compute; reflexivity).
  assert (EE.pixel (edges defaults (edges defaults (straightEdge 5))) (2, 0)%Z
          = None) as H2 by (vm_compute; reflexivity).
  split; [exact H1|]. split; [exact H2|]. rewrite H1, H2. discriminate.
Qed.

(** Scenario C of the specification: a patch of five edge cells is removed
    under the minimum length 25. *)
Example edges_removes_short_edge :
  EE.pixel (edges defaults (straightEdge 5)) (2, 0)%Z = Some 0.
Proof. vm_compute. reflexivity. Qed.

End EdgeFilterTheorems.

(** ** The buffer *)

Section BufferTheorems.

(** What the buffer holds, in the terms of the script. *)
Lemma bufferedEdges_pixel cfg referenceImage canny buffer c :
  bufferedEdges cfg referenceImage canny = Some buffer ->
  exists proj,
    imageProj cfg referenceImage = Some proj /\
    EE.projection referenceImage = proj /\
    EE.pixel buffer c
    = EE.pixel (EE.lt (EE.fastDistanceTransform (edges cfg canny))
                  (EE.divide (edgeBuffer cfg) (EE.nominalScale proj))) c.
Proof.
  unfold bufferedEdges, edgeBufferPixel, imageProj, commonGrid, EE.select,
    EE.resample.
  destruct (String.eqb (band cfg) (EE.bandName referenceImage));
    [|discriminate].
  simpl. intros [= <-]. eexists. repeat split.
Qed.

(** C6. A longer buffer distance never loses a cell: with a pixel size that
    is not negative and [d1 <= d2], a cell of the buffer for [d1] is a cell
    of the buffer for [d2]. *)
Theorem bufferedEdges_monotonic
    (cfg : Params) (referenceImage canny : EE.Image) (d1 d2 : Q)
    (buffer1 buffer2 : EE.Image) (c : EE.Cell) :
  d1 <= d2 ->
  0 <= EE.nominalScale (EE.projection referenceImage) ->
  bufferedEdges (withEdgeBuffer cfg d1) referenceImage canny = Some buffer1 ->
  bufferedEdges (withEdgeBuffer cfg d2) referenceImage canny = Some buffer2 ->
  EE.pixel buffer1 c = Some 1 -> EE.pixel buffer2 c = Some 1.
Proof.
  intros Hd Hs H1 H2.
  destruct (bufferedEdges_pixel _ _ _ _ c H1) as (p1 & _ & <- & ->).
  destruct (bufferedEdges_pixel _ _ _ _ c H2) as (p2 & _ & <- & ->).
  change (edges (withEdgeBuffer cfg d1) canny) with (edges cfg canny).
  change (edges (withEdgeBuffer cfg d2) canny) with (edges cfg canny).
  rewrite !lt_one. intros (v & Hv & Hlt). exists v. split; [exact Hv|].
  eapply Qlt_le_trans; [exact Hlt|]. apply divide_mono; assumption.
Qed.

Lemma bufferedEdges_monotonic_witness :
  exists buffer1 buffer2,
    30 <= 60 /\
    0 <= EE.nominalScale (EE.projection referenceScene) /\
    bufferedEdges (withEdgeBuffer keepAllNoBuffer 30) referenceScene
      (straightEdge 1) = Some buffer1 /\
    bufferedEdges (withEdgeBuffer keepAllNoBuffer 60) referenceScene
      (straightEdge 1) = Some buffer2 /\
    EE.pixel buffer1 (0, 1)%Z = Some 1 /\
    EE.pixel buffer2 (0, 1)%Z = Some 1.
Proof.
  exists (EE.lt (EE.fastDistanceTransform
                   (edges (withEdgeBuffer keepAllNoBuffer 30) (straightEdge 1)))
            (EE.divide 30 10)),
         (EE.lt (EE.fastDistanceTransform
                   (edges (withEdgeBuffer keepAllNoBuffer 60) (straightEdge 1)))
            (EE.divide 60 10)).
  assert (30 <= 60) as Hd by (unfold Qle; simpl; lia).
  assert (0 <= EE.nominalScale (EE.projection referenceScene)) as Hs
    by (unfold Qle; simpl; lia).
  assert (EE.pixel (EE.lt (EE.fastDistanceTransform
                     (edges (withEdgeBuffer keepAllNoBuffer 30) (straightEdge 1)))
              (EE.divide 30 10)) (0, 1)%Z = Some 1) as Hin
    by (vm_compute; reflexivity).
  split; [exact Hd|]. split; [exact Hs|]. split; [reflexivity|].
  split; [reflexivity|]. split; [exact Hin|].
  exact (bufferedEdges_monotonic keepAllNoBuffer referenceScene
           (straightEdge 1) 30 60 _ _ (0, 1)%Z Hd Hs eq_refl eq_refl Hin).
Defined.

(** C5, as the code has it. With a buffer distance of zero no cell is in the
    buffer: the mask holds 0 wherever the distance transform has a value,
    on the edges themselves too, and nothing elsewhere. *)
Theorem bufferedEdges_zero_buffer
    (cfg : Params) (referenceImage canny buffer : EE.Image) (c : EE.Cell) :
  edgeBuffer cfg == 0 ->
  bufferedEdges cfg referenceImage canny = Some buffer ->
  EE.pixel buffer c <> Some 1 /\
  EE.pixel buffer c
  = match EE.pixel (EE.fastDistanceTransform (edges cfg canny)) c with
    | Some _ => Some 0
    | None => None
    end.
Proof.
  intros Hzero Hb.
  destruct (bufferedEdges_pixel _ _ _ _ c Hb) as (proj & _ & _ & ->).
  rewrite lt_fastDistanceTransform_zero by (apply divide_zero_l, Hzero).
  split; [|reflexivity].
  destruct (EE.pixel (EE.fastDistanceTransform (edges cfg canny)) c);
    discriminate.
Qed.

Lemma bufferedEdges_zero_buffer_witness :
  exists buffer,
    bufferedEdges keepAllNoBuffer referenceScene (straightEdge 1) = Some buffer /\
    EE.pixel buffer (0, 0)%Z <> Some 1 /\
    EE.pixel buffer (0, 0)%Z
    = match EE.pixel (EE.fastDistanceTransform
                        (edges keepAllNoBuffer (straightEdge 1))) (0, 0)%Z with
      | Some _ => Some 0
      | None => None
      end.
Proof.
  eexists. split; [reflexivity|].
  apply (bufferedEdges_zero_buffer keepAllNoBuffer referenceScene (straightEdge 1)).
  - reflexivity.
  - reflexivity.
Defined.

(** The one-cell edge is kept by the filter that keeps every edge. *)
Lemma straightEdge_1_kept :
  EE.pixel (edges keepAllNoBuffer (straightEdge 1)) (0, 0)%Z = Some 1.
Proof. vm_compute. reflexivity. Qed.

(** C5 as stated fails on an edge of one cell: the filtered edge mask holds 1
    in that cell, the buffer of distance zero holds 0 there. *)
Lemma bufferedEdges_zero_buffer_counterexample :
  exists buffer,
    bufferedEdges keepAllNoBuffer referenceScene (straightEdge 1) = Some buffer /\
    EE.pixel (edges keepAllNoBuffer (straightEdge 1)) (0, 0)%Z = Some 1 /\
    EE.pixel buffer (0, 0)%Z = Some 0.
Proof.
  eexists. split; [reflexivity|]. split; [exact straightEdge_1_kept|].
  rewrite lt_fastDistanceTransform_zero by reflexivity.
  destruct (nearest_le (edges keepAllNoBuffer (straightEdge 1))
              EE.defaultNeighborhood (0, 0)%Z (0, 0)%Z) as (d & Hd & _).
  - simpl. lia.
  - simpl. lia.
  - unfold EE.nonZero. rewrite straightEdge_1_kept. reflexivity.
  - cbn [EE.fastDistanceTransform EE.pixel]. rewrite Hd. reflexivity.
Qed.

(** The filter keeps the edge of 25 cells under the parameters the script
    is distributed with. *)
Lemma straightEdge_25_kept :
  EE.nonZero (edges defaults (straightEdge 25)) (0, 0)%Z = true.
Proof. vm_compute. reflexivity. Qed.

Lemma straightEdge_row n q :
  EE.nonZero (straightEdge n) q = true -> snd q = 0%Z.
Proof.
  unfold EE.nonZero, straightEdge. cbn [EE.pixel].
  destruct (snd q =? 0)%Z eqn:E; [intros _; lia|].
  rewrite andb_false_r. discriminate.
Qed.

(** C4 on the parameters the script is distributed with (buffer 60 m,
    resolution 30 m), Sentinel-1 scenes on their grid of 10 m, one straight
    edge of 25 cells, and the cell two pixels away from it. The script
    divides the buffer by the 10 m of the reference grid, not by the
    resolution, and compares the squared distance with the quotient: the
    cell, at distance 2 (squared 4), is in the buffer since 4 < 6, where
    the buffer of 60 / 30 = 2 pixels leaves it out. *)
Theorem bufferedEdges_default_parameters :
  exists threshold buffer,
    edgeBufferPixel defaults referenceScene = Some threshold /\
    threshold == 6 /\
    Spec.bufferPixels (edgeBuffer defaults) (setResolution defaults) == 2 /\
    EE.pixel (EE.fastDistanceTransform (edges defaults (straightEdge 25)))
      (0, 2)%Z = Some 4 /\
    bufferedEdges defaults referenceScene (straightEdge 25) = Some buffer /\
    EE.pixel buffer (0, 2)%Z = Some 1 /\
    Spec.inBuffer 4 (edgeBuffer defaults) (setResolution defaults) = false.
Proof.
  assert (EE.pixel (EE.fastDistanceTransform (edges defaults (straightEdge 25)))
            (0, 2)%Z = Some 4) as Hdist.
  { cbn [EE.fastDistanceTransform EE.pixel].
    destruct (nearest_le (edges defaults (straightEdge 25))
                EE.defaultNeighborhood (0, 2)%Z (0, 0)%Z) as (d & Hd & Hle).
    - unfold EE.defaultNeighborhood. simpl. lia.
    - unfold EE.defaultNeighborhood. simpl. lia.
    - exact straightEdge_25_kept.
    - rewrite Hd. destruct (nearest_attained _ _ _ _ Hd) as (q & Hq & Hdq).
      apply nonZero_edges, straightEdge_row in Hq.
      assert (d = 4%Z) as ->; [|reflexivity].
      unfold EE.squaredDistance in *. simpl in *. rewrite Hq in Hdq.
      pose proof (Z.square_nonneg (0 - fst q)). lia. }
  exists (EE.divide 60 10),
    (EE.lt (EE.fastDistanceTransform (edges defaults (straightEdge 25)))
       (EE.divide 60 10)).
  split; [reflexivity|]. split; [reflexivity|].
  split; [reflexivity|]. split; [exact Hdist|]. split; [reflexivity|].
  split; [|reflexivity].
  change (EE.pixel (EE.lt ?img ?t) ?c)
    with (match EE.pixel img c with
          | Some v => Some (if EE.ltb v t then 1 else 0)
          | None => None
          end).
  rewrite Hdist. reflexivity.
Qed.

End BufferTheorems.

(** ** Initialisation *)

Section InitialisationTheorems.

(** C8, as the code has it. No parameter is validated. With a season the
    switch knows, the initialisation completes with nothing on the console,
    whatever the resolution, the band and the edge and buffer parameters
    are. With any other season the default branch of the switch prints its
    message and the script goes on to the dates, where the first
    [ee.Date.fromYMD] is called with an undefined month and throws the
    client library's missing-argument error: the message is on the console
    by then, and the error is not one of a validation. *)
Theorem initialise_validates_nothing (cfg : Params) :
  (recognised (userSeason cfg) = true ->
     exists st dates,
       initialise cfg = Normal (st, dates) /\ console st = [] /\
       seasonStartMonth st <> None /\ seasonEndMonth st <> None) /\
  (recognised (userSeason cfg) = false ->
     seasonSwitch (userSeason cfg) declared
     = Normal (mkSeasonState None None [invalidSeasonMessage]) /\
     initialise cfg
     = Throw (RequiredArgumentMissing "month" "Date.fromYMD")
         [invalidSeasonMessage]).
Proof.
  unfold initialise, seasonSwitch, recognised.
  destruct (String.eqb (userSeason cfg) "Fall") eqn:E1;
  [|destruct (String.eqb (userSeason cfg) "Winter") eqn:E2;
    [|destruct (String.eqb (userSeason cfg) "Spring") eqn:E3;
      [|destruct (String.eqb (userSeason cfg) "Summer") eqn:E4]]].
  - split; [intros _|discriminate]. assert (String.eqb (userSeason cfg) "Winter" = false) as E2.
    { apply String.eqb_eq in E1. rewrite E1. reflexivity. }
    unfold dateRange. rewrite E2. cbn. eexists _, _.
    repeat split; discriminate.
  - split; [intros _|discriminate].
    unfold dateRange. rewrite E2. cbn. eexists _, _.
    repeat split; discriminate.
  - split; [intros _|discriminate].
    unfold dateRange. rewrite E2. cbn. eexists _, _.
    repeat split; discriminate.
  - split; [intros _|discriminate].
    unfold dateRange. rewrite E2. cbn. eexists _, _.
    repeat split; discriminate.
  - split; [discriminate|intros _]. split; [reflexivity|].
    unfold dateRange. rewrite E2. reflexivity.
Qed.

Lemma initialise_validates_nothing_witness :
  recognised (userSeason outOfRangeParams) = true /\
  (exists st dates,
     initialise outOfRangeParams = Normal (st, dates) /\ console st = [] /\
     seasonStartMonth st <> None /\ seasonEndMonth st <> None) /\
  recognised (userSeason invalidParams) = false /\
  seasonSwitch (userSeason invalidParams) declared
  = Normal (mkSeasonState None None [invalidSeasonMessage]) /\
  initialise invalidParams
  = Throw (RequiredArgumentMissing "month" "Date.fromYMD")
      [invalidSeasonMessage].
Proof.
  split; [reflexivity|]. split.
  - exact (proj1 (initialise_validates_nothing outOfRangeParams) eq_refl).
  - split; [reflexivity|].
    exact (proj2 (initialise_validates_nothing invalidParams) eq_refl).
Defined.

(** C8 as stated fails. A resolution of 5 m, a band that does not exist
    and negative edge parameters, under a season the switch knows, complete
    the initialisation normally: nothing is raised. Under a season the
    switch does not know the message is written first, and what stops the
    script afterwards is the missing argument of the date, not a check of
    the parameter. *)
Lemma initialise_unvalidated_counterexample :
  initialise outOfRangeParams
  = Normal (mkSeasonState (Some 6%Z) (Some 8%Z) [],
            (fromYMD 2023 (Some 6%Z) 1,
             advance 1 "month" (fromYMD 2023 (Some 8%Z) 1))) /\
  initialise invalidParams
  = Throw (RequiredArgumentMissing "month" "Date.fromYMD")
      [invalidSeasonMessage].
Proof. split; reflexivity. Qed.

End InitialisationTheorems.



(** ** More about the thresholder *)

(** A threshold comes from a histogram with one count per mean, and is one
    of its means. *)
Lemma otsu_some (h : Histogram) (t : Q) :
  otsu h = Some t ->
  length (counts h) = length (means h) /\ In t (means h).
Proof.
  intros Hotsu.
  destruct (Nat.eq_dec (length (counts h)) (length (means h))) as [Hlen|Hne].
  - split; [exact Hlen|]. destruct (size h) as [|n] eqn:Hsize.
    + assert (means h = []) as Hm by (apply length_zero_iff_nil; exact Hsize).
      unfold otsu in Hotsu. rewrite Hlen, Nat.eqb_refl in Hotsu.
      unfold EE.sort in Hotsu. rewrite Hm, combine_nil in Hotsu. discriminate.
    + destruct (otsu_last_maximum h Hlen) as (k & Hk & Hk' & _); [lia|].
      rewrite Hk' in Hotsu. injection Hotsu as <-.
      apply nth_In. fold (size h). lia.
  - unfold otsu in Hotsu. apply Nat.eqb_neq in Hne. rewrite Hne in Hotsu.
    discriminate.
Qed.


(** X2. With counts that are not negative, no entry of [bss] is negative,
    at whatever index it is evaluated. *)
Theorem bssAt_nonnegative (h : Histogram) (i : nat) :
  nonNegativeCounts h -> 0 <= bssAt h i.
Proof.
  intros Hnn. unfold nonNegativeCounts in Hnn.
  pose proof (reduceSum_split (counts h) i) as Hsplit.
  assert (0 <= EE.reduceSum (firstn i (counts h))) as HA.
  { apply reduceSum_nonneg, List.Forall_forall. intros x Hx.
    apply (proj1 (List.Forall_forall _ _) Hnn).
    rewrite <- (firstn_skipn i (counts h)). apply in_or_app. tauto. }
  assert (0 <= EE.reduceSum (skipn i (counts h))) as HB.
  { apply reduceSum_nonneg, List.Forall_forall. intros x Hx.
    apply (proj1 (List.Forall_forall _ _) Hnn).
    rewrite <- (firstn_skipn i (counts h)). apply in_or_app. tauto. }
  unfold bssAt, bCount, aCount, aCounts, total. rewrite slice_from_0.
  pose proof (pow2_nonneg (aMean h i - mean h)).
  pose proof (pow2_nonneg (bMean h i - mean h)).
  assert (0 <= EE.reduceSum (counts h) - EE.reduceSum (firstn i (counts h)))
    by lra.
  apply Qle_trans with (0 + 0); [lra|].
  apply Qplus_le_compat; apply Qmult_le_0_compat; assumption.
Qed.

(** ** More about the edge filter *)

Section EdgeFilterMore.

Variable cfg : Params.
Variable canny : EE.Image.

Lemma counted_pixel c :
  EE.pixel (counted cfg canny) c
  = match EE.pixel canny c with
    | Some a =>
        if Qeq_bool a 0 then None
        else Some (if EE.ltb a (cannyLt cfg) then 1 else 0)
    | None => None
    end.
Proof.
  unfold counted. cbn [EE.lt EE.updateMask EE.pixel].
  destruct (EE.pixel canny c) as [a|]; [|reflexivity].
  destruct (Qeq_bool a 0); reflexivity.
Qed.

Lemma edges_pixel c :
  EE.pixel (edges cfg canny) c
  = match EE.pixel (counted cfg canny) c with
    | Some v =>
        Some (if Qle_bool (edgeLength cfg)
                   (inject_Z (Z.of_nat (EE.patchCount (counted cfg canny)
                                          (connectedPixels cfg) true v c)))
              then 1 else 0)
    | None => None
    end.
Proof.
  unfold edges, connected.
  change (EE.lt (EE.updateMask canny canny) (cannyLt cfg)) with (counted cfg canny).
  cbn [EE.gte EE.connectedPixelCount EE.pixel].
  destruct (EE.pixel (counted cfg canny) c); reflexivity.
Qed.

Lemma counted_nonZero c :
  EE.nonZero canny c = true <-> exists v, EE.pixel (counted cfg canny) c = Some v.
Proof.
  rewrite counted_pixel. unfold EE.nonZero.
  destruct (EE.pixel canny c) as [a|].
  - destruct (Qeq_bool a 0); simpl; split; try discriminate; eauto.
    intros (v & Hv). discriminate.
  - split; [discriminate|]. intros (v & Hv). discriminate.
Qed.

Lemma patchCount_bounds img n v c :
  (EE.patchCount img n true v c <= n)%nat /\
  ((1 <= n)%nat -> (1 <= EE.patchCount img n true v c)%nat).
Proof.
  unfold EE.patchCount. split; [lia|]. intros Hn.
  pose proof (patch_start img true v n c) as Hstart.
  assert ({[c]} ⊆ EE.patch img true n v c) as Hsub
    by (intros x Hx; apply elem_of_singleton in Hx; subst; exact Hstart).
  apply subseteq_size in Hsub. rewrite size_singleton in Hsub. lia.
Qed.

Lemma edges_masked (c : EE.Cell) :
  EE.nonZero canny c = false -> EE.pixel (edges cfg canny) c = None.
Proof.
  intros H. rewrite edges_pixel.
  destruct (EE.pixel (counted cfg canny) c) as [v|] eqn:E; [|reflexivity].
  assert (EE.nonZero canny c = true) by (apply counted_nonZero; eauto).
  congruence.
Qed.

(** X7. The filtered edge image holds data exactly in the cells where the
    Canny image is not zero, and there it holds 0 or 1. *)
Theorem edges_footprint (c : EE.Cell) :
  (EE.nonZero canny c = true ->
     EE.pixel (edges cfg canny) c = Some 0 \/
     EE.pixel (edges cfg canny) c = Some 1) /\
  (EE.nonZero canny c = false -> EE.pixel (edges cfg canny) c = None).
Proof.
  rewrite edges_pixel. split.
  - intros H. apply counted_nonZero in H. destruct H as (v & ->).
    destruct (Qle_bool _ _); tauto.
  - intros H. destruct (EE.pixel (counted cfg canny) c) as [v|] eqn:E;
      [|reflexivity].
    assert (EE.nonZero canny c = true) by (apply counted_nonZero; eauto).
    congruence.
Qed.

(** X9. A minimum length above [connectedPixels] removes every edge: the
    patch count stops at [connectedPixels], so no cell reaches the minimum
    and the filtered image is 0 on every edge cell. *)
Theorem edges_none_longer_than_cap (c : EE.Cell) :
  inject_Z (Z.of_nat (connectedPixels cfg)) < edgeLength cfg ->
  EE.pixel (edges cfg canny) c
  = (if EE.nonZero canny c then Some 0 else None).
Proof.
  intros Hcap. destruct (EE.nonZero canny c) eqn:E.
  - rewrite edges_pixel. apply counted_nonZero in E. destruct E as (v & ->).
    destruct (Qle_bool _ _) eqn:El; [|reflexivity].
    apply Qle_bool_iff in El.
    destruct (patchCount_bounds (counted cfg canny) (connectedPixels cfg) v c)
      as [Hle _].
    apply inj_le in Hle. rewrite Zle_Qle in Hle. lra.
  - apply edges_masked, E.
Qed.

(** X10. A minimum length of at most 1, with [connectedPixels] at least 1,
    removes nothing: the filtered image is 1 on every edge cell. *)
Theorem edges_all_kept (c : EE.Cell) :
  edgeLength cfg <= 1 -> (1 <= connectedPixels cfg)%nat ->
  EE.pixel (edges cfg canny) c
  = (if EE.nonZero canny c then Some 1 else None).
Proof.
  intros HL Hn. destruct (EE.nonZero canny c) eqn:E.
  - rewrite edges_pixel. apply counted_nonZero in E. destruct E as (v & ->).
    destruct (Qle_bool _ _) eqn:El; [reflexivity|].
    destruct (patchCount_bounds (counted cfg canny) (connectedPixels cfg) v c)
      as [_ Hge].
    specialize (Hge Hn). apply inj_le in Hge. rewrite Zle_Qle in Hge.
    assert (edgeLength cfg <=
            inject_Z (Z.of_nat (EE.patchCount (counted cfg canny)
                                  (connectedPixels cfg) true v c))) as H.
    { eapply Qle_trans; [exact HL|]. exact Hge. }
    apply Qle_bool_iff in H. congruence.
  - apply edges_masked, E.
Qed.

(** X11. The filter never cuts a patch: two neighbouring edge cells (eight
    neighbours) whose strengths lie on the same side of [cannyLt] get the
    same value, both kept or both removed. *)
Theorem edges_neighbours_agree (c x : EE.Cell) (a b : Q) :
  In x (EE.neighbours true c) ->
  EE.pixel canny c = Some a -> EE.pixel canny x = Some b ->
  ~ a == 0 -> ~ b == 0 ->
  (a < cannyLt cfg <-> b < cannyLt cfg) ->
  EE.pixel (edges cfg canny) c = EE.pixel (edges cfg canny) x.
Proof.
  intros Hn Ha Hb Ha0 Hb0 Hside.
  assert (EE.ltb a (cannyLt cfg) = EE.ltb b (cannyLt cfg)) as Hltb.
  { destruct (EE.ltb a (cannyLt cfg)) eqn:E1, (EE.ltb b (cannyLt cfg)) eqn:E2;
      try reflexivity.
    - apply ltb_lt, Hside, ltb_lt in E1. congruence.
    - apply ltb_lt, Hside, ltb_lt in E2. congruence. }
  set (v := if EE.ltb a (cannyLt cfg) then (1 : Q) else 0).
  assert (EE.pixel (counted cfg canny) c = Some v) as Hc.
  { rewrite counted_pixel, Ha.
    destruct (Qeq_bool a 0) eqn:E; [apply Qeq_bool_iff in E; contradiction|].
    reflexivity. }
  assert (EE.pixel (counted cfg canny) x = Some v) as Hx.
  { rewrite counted_pixel, Hb.
    destruct (Qeq_bool b 0) eqn:E; [apply Qeq_bool_iff in E; contradiction|].
    unfold v. rewrite Hltb. reflexivity. }
  rewrite !edges_pixel, Hc, Hx.
  pose proof (hasValue_self _ _ _ Hc) as Hvc.
  pose proof (hasValue_self _ _ _ Hx) as Hvx.
  assert (EE.patchCount (counted cfg canny) (connectedPixels cfg) true v c
          = EE.patchCount (counted cfg canny) (connectedPixels cfg) true v x)
    as ->; [|reflexivity].
  apply Nat.le_antisymm.
  - apply patchCount_reach; [exact Hvc|].
    apply rtc_once. split; assumption.
  - apply patchCount_reach; [exact Hvx|].
    apply rtc_once. split; [apply neighbours_sym, Hn|exact Hvc].
Qed.

End EdgeFilterMore.

(** ** More about the buffer and the sampling image *)

Section BufferMore.

Lemma nearest_attained_window img n c d :
  EE.nearest img n c = Some d ->
  exists q,
    (- Z.of_nat n <= fst q - fst c <= Z.of_nat n)%Z /\
    (- Z.of_nat n <= snd q - snd c <= Z.of_nat n)%Z /\
    EE.nonZero img q = true /\ d = EE.squaredDistance c q.
Proof.
  unfold EE.nearest. intros H.
  apply least_attained in H. destruct H as (dx & Hdx & H).
  apply least_attained in H. destruct H as (dy & Hdy & H).
  cbv zeta in H.
  destruct (EE.nonZero img (fst c + dx, snd c + dy)%Z) eqn:E; [|discriminate].
  injection H as <-. apply In_offsets in Hdx, Hdy.
  exists (fst c + dx, snd c + dy)%Z. cbn [fst snd].
  repeat split; try lia. exact E.
Qed.

(** The cells that a threshold on the distance transform selects. *)
Lemma lt_fastDistanceTransform_one img t c :
  EE.pixel (EE.lt (EE.fastDistanceTransform img) t) c = Some 1 <->
  exists q,
    (- Z.of_nat EE.defaultNeighborhood <= fst q - fst c
     <= Z.of_nat EE.defaultNeighborhood)%Z /\
    (- Z.of_nat EE.defaultNeighborhood <= snd q - snd c
     <= Z.of_nat EE.defaultNeighborhood)%Z /\
    EE.nonZero img q = true /\
    inject_Z (EE.squaredDistance c q) < t.
Proof.
  rewrite lt_one. cbn [EE.fastDistanceTransform EE.pixel]. split.
  - intros (v & Hv & Hlt).
    destruct (EE.nearest img EE.defaultNeighborhood c) as [d|] eqn:E;
      [|discriminate].
    injection Hv as <-.
    destruct (nearest_attained_window _ _ _ _ E) as (q & Hx & Hy & Hq & ->).
    exists q. tauto.
  - intros (q & Hx & Hy & Hq & Hlt).
    destruct (nearest_le img EE.defaultNeighborhood c q Hx Hy Hq)
      as (d & -> & Hle).
    eexists. split; [reflexivity|].
    eapply Qle_lt_trans; [|exact Hlt]. rewrite <- Zle_Qle. exact Hle.
Qed.

(** X12. A cell is in the buffer exactly when some kept edge cell, at most
    256 pixels away along each axis, lies at a squared pixel distance
    below [edgeBuffer] divided by the nominal scale of the projection of
    the reference image. *)
Theorem bufferedEdges_cells
    (cfg : Params) (referenceImage canny buffer : EE.Image) (c : EE.Cell) :
  bufferedEdges cfg referenceImage canny = Some buffer ->
  (EE.pixel buffer c = Some 1 <->
   exists q,
     (- Z.of_nat EE.defaultNeighborhood <= fst q - fst c
      <= Z.of_nat EE.defaultNeighborhood)%Z /\
     (- Z.of_nat EE.defaultNeighborhood <= snd q - snd c
      <= Z.of_nat EE.defaultNeighborhood)%Z /\
     EE.pixel (edges cfg canny) q = Some 1 /\
     inject_Z (EE.squaredDistance c q)
     < EE.divide (edgeBuffer cfg)
         (EE.nominalScale (EE.projection referenceImage))).
Proof.
  intros Hb.
  destruct (bufferedEdges_pixel _ _ _ _ c Hb) as (proj & _ & <- & ->).
  rewrite lt_fastDistanceTransform_one. split.
  - intros (q & Hx & Hy & Hq & Hlt). exists q. repeat split; try tauto.
    apply (nonZero_binary _ q (edges_binary cfg canny q)), Hq.
  - intros (q & Hx & Hy & Hq & Hlt). exists q. repeat split; try tauto.
    apply (nonZero_binary _ q (edges_binary cfg canny q)), Hq.
Qed.

(** X13. With a positive buffer distance and a positive nominal scale every
    kept edge cell is itself in the buffer. *)
Theorem edges_in_buffer
    (cfg : Params) (referenceImage canny buffer : EE.Image) (c : EE.Cell) :
  0 < edgeBuffer cfg ->
  0 < EE.nominalScale (EE.projection referenceImage) ->
  bufferedEdges cfg referenceImage canny = Some buffer ->
  EE.pixel (edges cfg canny) c = Some 1 ->
  EE.pixel buffer c = Some 1.
Proof.
  intros Hd Hs Hb Hc.
  destruct (bufferedEdges_pixel _ _ _ _ c Hb) as (proj & _ & <- & ->).
  apply lt_fastDistanceTransform_one.
  exists c. replace (fst c - fst c)%Z with 0%Z by lia.
  replace (snd c - snd c)%Z with 0%Z by lia.
  split; [lia|]. split; [lia|]. split.
  - apply (nonZero_binary _ c (edges_binary cfg canny c)), Hc.
  - unfold EE.squaredDistance.
    replace (fst c - fst c)%Z with 0%Z by lia.
    replace (snd c - snd c)%Z with 0%Z by lia.
    change (inject_Z (0 * 0 + 0 * 0)) with 0.
    rewrite divide_nonzero by lra.
    apply Qlt_shift_div_l; lra.
Qed.

Lemma edgeImage_updateMask
    (cfg : Params) (referenceImage composite canny image : EE.Image) :
  edgeImage cfg referenceImage composite canny = Some image ->
  exists buffer,
    bufferedEdges cfg referenceImage canny = Some buffer /\
    image = EE.updateMask (s1Mosaic cfg composite) buffer.
Proof.
  unfold edgeImage. unfold s1Mosaic at 1. rewrite select_rename.
  destruct (bufferedEdges cfg referenceImage canny) as [buffer|];
    [|discriminate].
  intros [= <-]. exists buffer. split; reflexivity.
Qed.

(** X15. The sampling image holds the backscatter of the mosaic, unchanged,
    in the cells of the buffer that have data in the mosaic, and nothing
    anywhere else. *)
Theorem edgeImage_pixels
    (cfg : Params) (referenceImage composite canny image : EE.Image) :
  edgeImage cfg referenceImage composite canny = Some image ->
  exists buffer,
    bufferedEdges cfg referenceImage canny = Some buffer /\
    forall c v,
      EE.pixel image c = Some v <->
      EE.pixel composite c = Some v /\ EE.pixel buffer c = Some 1.
Proof.
  intros Himg.
  destruct (edgeImage_updateMask _ _ _ _ _ Himg) as (buffer & Hb & ->).
  exists buffer. split; [exact Hb|]. intros c v.
  cbn [EE.updateMask s1Mosaic EE.rename EE.pixel].
  destruct (bufferedEdges_pixel _ _ _ _ c Hb) as (proj & _ & _ & Hpix).
  destruct (EE.pixel composite c) as [w|].
  - destruct (EE.pixel buffer c) as [m|] eqn:Em.
    + symmetry in Hpix. apply lt_binary in Hpix.
      destruct Hpix as [-> | ->]; simpl; split; try discriminate;
        try (intros [_ H]; discriminate); try tauto.
    + split; [discriminate|]. intros [_ H]. discriminate.
  - split; [discriminate|]. intros [H _]. discriminate.
Qed.

(** X16. A buffer distance that is not positive leaves nothing to sample:
    with a nominal scale that is not negative the sampling image has no
    data in any cell. *)
Theorem edgeImage_empty
    (cfg : Params) (referenceImage composite canny image : EE.Image)
    (c : EE.Cell) :
  edgeBuffer cfg <= 0 ->
  0 <= EE.nominalScale (EE.projection referenceImage) ->
  edgeImage cfg referenceImage composite canny = Some image ->
  EE.pixel image c = None.
Proof.
  intros Hd Hs Himg.
  destruct (edgeImage_updateMask _ _ _ _ _ Himg) as (buffer & Hb & ->).
  cbn [EE.updateMask EE.pixel].
  destruct (EE.pixel (s1Mosaic cfg composite) c) as [w|]; [|reflexivity].
  destruct (bufferedEdges_pixel _ _ _ _ c Hb) as (proj & _ & <- & Hpix).
  destruct (EE.pixel buffer c) as [m|] eqn:Em; [|reflexivity].
  symmetry in Hpix. pose proof Hpix as Hbin. apply lt_binary in Hbin.
  destruct Hbin as [-> | ->]; [reflexivity|].
  apply lt_fastDistanceTransform_one in Hpix.
  destruct Hpix as (q & _ & _ & _ & Hlt).
  assert (EE.divide (edgeBuffer cfg)
            (EE.nominalScale (EE.projection referenceImage)) <= 0) as Hle.
  { rewrite <- (divide_zero_l 0 (EE.nominalScale (EE.projection referenceImage)))
      by reflexivity.
    apply divide_mono; assumption. }
  pose proof (squaredDistance_nonneg c q) as Hnn.
  rewrite Zle_Qle in Hnn. change (inject_Z 0) with 0 in Hnn. lra.
Qed.

End BufferMore.

(** ** More about the water masks, the pixel counts and the dates *)

Section WaterMore.

Variable cfg : Params.
Variable composite : EE.Image.

Lemma globalWater_eq t :
  globalWater cfg composite t = Some (EE.lt (s1Mosaic cfg composite) t).
Proof. unfold globalWater, s1Mosaic. rewrite select_rename. reflexivity. Qed.

Lemma localWater_eq t :
  localWater cfg composite t = Some (EE.lt (s1Mosaic cfg composite) t).
Proof. unfold localWater, s1Mosaic. rewrite select_rename. reflexivity. Qed.

(** X17. Water only grows with the threshold: with [t1 <= t2], a cell that
    is water under [t1] is water under [t2], and a cell that is not water
    under [t2] is not water under [t1]. So an adaptive threshold below the
    global one gives a water mask inside the global one. *)
Theorem water_grows_with_threshold
    (t1 t2 : Q) (low high : EE.Image) (c : EE.Cell) :
  t1 <= t2 ->
  localWater cfg composite t1 = Some low ->
  globalWater cfg composite t2 = Some high ->
  (EE.pixel low c = Some 1 -> EE.pixel high c = Some 1) /\
  (EE.pixel high c = Some 0 -> EE.pixel low c = Some 0).
Proof.
  intros Ht. rewrite localWater_eq, globalWater_eq. intros [= <-] [= <-].
  rewrite !lt_one, !lt_zero. split.
  - intros (v & Hv & Hlt). exists v. split; [exact Hv|lra].
  - intros (v & Hv & Hle). exists v. split; [exact Hv|lra].
Qed.

(** X18. The water layers put on the map ([selfMask()] of a water mask)
    hold data in the water cells only, and the value there is 1: the cells
    that are not water are masked out, as the script's comment says. *)
Theorem water_layer_selfMask (t : Q) (water : EE.Image) (c : EE.Cell) :
  globalWater cfg composite t = Some water ->
  (EE.pixel (EE.selfMask water) c = Some 1 <->
     exists v, EE.pixel composite c = Some v /\ v < t) /\
  (forall v, EE.pixel (EE.selfMask water) c = Some v -> v = 1).
Proof.
  rewrite globalWater_eq. intros [= <-]. unfold EE.selfMask.
  rewrite (selfMasked_binary _ c (lt_binary _ t c)).
  rewrite <- (lt_one (s1Mosaic cfg composite) t c).
  pose proof (nonZero_binary _ c (lt_binary (s1Mosaic cfg composite) t c)) as Hnz.
  destruct (EE.nonZero (EE.lt (s1Mosaic cfg composite) t) c).
  - split; [|intros v [= <-]; reflexivity].
    split; [intros _; apply Hnz; reflexivity|reflexivity].
  - split; [|discriminate]. split; [discriminate|].
    intros H. apply Hnz in H. discriminate.
Qed.

Lemma reduceRegionSum_lt t region :
  fold_right
    (fun cw acc =>
       match EE.pixel (EE.lt (s1Mosaic cfg composite) t) (fst cw) with
       | Some v => snd cw * v + acc
       | None => acc
       end) 0 region
  == weightBelow composite t region.
Proof.
  unfold weightBelow, EE.reduceSum.
  induction region as [|cw region IH]; [reflexivity|].
  cbn [fold_right map].
  set (rest := fold_right _ 0 region) in *.
  cbn [EE.lt s1Mosaic EE.rename EE.pixel].
  destruct (EE.pixel composite (fst cw)) as [v|]; [|rewrite IH; ring].
  destruct (EE.ltb v t); rewrite IH; ring.
Qed.

Lemma waterCount_value (t n : Q) (studyArea : EE.Region) :
  globalWaterCount cfg composite t studyArea = Some n ->
  n == weightBelow composite t studyArea.
Proof.
  unfold globalWaterCount, waterCount. rewrite globalWater_eq.
  unfold EE.reduceRegionSum.
  destruct (maxPixels <? Z.of_nat (length studyArea))%Z; [discriminate|].
  unfold EE.dictGet. cbn [fst snd EE.lt EE.bandName s1Mosaic EE.rename].
  rewrite String.eqb_refl. intros [= <-]. apply reduceRegionSum_lt.
Qed.

Lemma localWaterCount_eq (t : Q) (studyArea : EE.Region) :
  localWaterCount cfg composite t studyArea
  = globalWaterCount cfg composite t studyArea.
Proof.
  unfold localWaterCount, globalWaterCount.
  rewrite localWater_eq, globalWater_eq. reflexivity.
Qed.

Lemma weightBelow_monotone t1 t2 region :
  Forall (fun cw => 0 <= snd cw) region -> t1 <= t2 ->
  0 <= weightBelow composite t1 region /\
  weightBelow composite t1 region <= weightBelow composite t2 region.
Proof.
  intros Hw Ht. unfold weightBelow, EE.reduceSum.
  induction Hw as [|cw region Hcw Hw IH]; cbn [map fold_right];
    [split; apply Qle_refl|].
  destruct IH as [IH0 IH].
  destruct (EE.pixel composite (fst cw)) as [v|]; [|split; lra].
  destruct (EE.ltb v t1) eqn:E1, (EE.ltb v t2) eqn:E2; try (split; lra).
  apply ltb_lt in E1.
  assert (v < t2) as H by lra. apply ltb_lt in H. congruence.
Qed.

(** X20. With pixel weights that are not negative the pixel count is not
    negative and grows with the threshold: the count under [t1] is at most
    the count under [t2] whenever [t1 <= t2]. *)
Theorem waterCount_monotone (t1 t2 n1 n2 : Q) (studyArea : EE.Region) :
  Forall (fun cw => 0 <= snd cw) studyArea -> t1 <= t2 ->
  localWaterCount cfg composite t1 studyArea = Some n1 ->
  globalWaterCount cfg composite t2 studyArea = Some n2 ->
  0 <= n1 /\ n1 <= n2.
Proof.
  intros Hw Ht H1 H2.
  rewrite localWaterCount_eq in H1.
  rewrite (waterCount_value t1 n1 studyArea H1),
    (waterCount_value t2 n2 studyArea H2).
  apply weightBelow_monotone; assumption.
Qed.

End WaterMore.

Section DatesMore.

(** X6. For each of the four seasons the date range starts on the first of
    a month and ends three months later: December of the year before to
    March for Winter, and inside the year for the other seasons. *)
Theorem season_covers_three_months (cfg : Params) :
  recognised (userSeason cfg) = true ->
  exists st start stop s e,
    initialise cfg = Normal (st, (start, stop)) /\
    monthOf start = Some s /\ monthOf stop = Some e /\
    (e - s = 3)%Z /\
    (if String.eqb (userSeason cfg) "Winter"
     then s = (12 * (userYear cfg - 1) + 11)%Z
     else (12 * userYear cfg <= s)%Z /\ (e <= 12 * userYear cfg + 12)%Z).
Proof.
  unfold recognised, initialise, seasonSwitch.
  destruct (String.eqb (userSeason cfg) "Fall") eqn:E1;
  [|destruct (String.eqb (userSeason cfg) "Winter") eqn:E2;
    [|destruct (String.eqb (userSeason cfg) "Spring") eqn:E3;
      [|destruct (String.eqb (userSeason cfg) "Summer") eqn:E4]]];
    try discriminate; intros _.
  - assert (String.eqb (userSeason cfg) "Winter" = false) as E2.
    { apply String.eqb_eq in E1. rewrite E1. reflexivity. }
    unfold dateRange. rewrite E2. cbn.
    do 5 eexists. repeat split; try reflexivity; lia.
  - unfold dateRange. rewrite E2. cbn.
    do 5 eexists. repeat split; try reflexivity; lia.
  - unfold dateRange. rewrite E2. cbn.
    do 5 eexists. repeat split; try reflexivity; lia.
  - unfold dateRange. rewrite E2. cbn.
    do 5 eexists. repeat split; try reflexivity; lia.
Qed.

End DatesMore.

(** ** The charts *)

Section ChartFacts.

Lemma nth_error_lookup {A} (l : list A) (i : nat) : nth_error l i = l !! i.
Proof. revert i. induction l as [|x l IH]; intros [|i]; simpl; auto. Qed.

Lemma catColumns_rows x y :
  length x = length y ->
  EE.catColumns x y = Some (map (fun p => [fst p; snd p]) (combine x y)).
Proof.
  revert y. induction x as [|a x IH]; intros [|b y] Hlen; simpl in *;
    try discriminate; [reflexivity|].
  rewrite IH by lia. reflexivity.
Qed.

Lemma indexOf_found l t :
  In t l ->
  exists j, EE.indexOf l t = Z.of_nat j /\ (j < length l)%nat /\
    nth j l 0 == t /\ forall i, (i < j)%nat -> ~ nth i l 0 == t.
Proof.
  induction l as [|x l IH]; intros Hin; [destruct Hin|].
  simpl. destruct (Qeq_bool x t) eqn:E.
  - exists 0%nat. apply Qeq_bool_iff in E. simpl.
    repeat split; [lia|exact E|intros i Hi; lia].
  - apply Qeq_bool_neq in E. destruct Hin as [->|Hin].
    + exfalso. apply E. reflexivity.
    + destruct (IH Hin) as (j & Hj & Hlt & Heq & Hfirst).
      rewrite Hj. destruct (Z.ltb_spec (Z.of_nat j) 0); [lia|].
      exists (S j). repeat split; [lia|simpl; lia|exact Heq|].
      intros [|i] Hi; [exact E|]. simpl. apply Hfirst. lia.
Qed.

Lemma position_in_range len i :
  (i < len)%nat -> EE.position len (Z.of_nat i) = Some i.
Proof.
  intros Hi. unfold EE.position.
  destruct (Z.ltb_spec (Z.of_nat i) 0); [lia|].
  destruct (Z.leb_spec 0 (Z.of_nat i)); [|lia].
  destruct (Z.ltb_spec (Z.of_nat i) (Z.of_nat len)); [|lia].
  simpl. rewrite Nat2Z.id. reflexivity.
Qed.

Lemma zrange_seq start len :
  EE.zrange start len = map (fun k => (start + Z.of_nat k)%Z) (seq 0 len).
Proof.
  revert start. induction len as [|len IH]; intros start; [reflexivity|].
  simpl. f_equal; [f_equal; lia|].
  rewrite IH, <- seq_shift, map_map. apply map_ext. intros k. lia.
Qed.

Lemma sequenceZ_rows n :
  EE.sequenceZ 0 (Z.of_nat n - 1) = map Z.of_nat (seq 0 n).
Proof.
  unfold EE.sequenceZ. rewrite zrange_seq.
  replace (Z.to_nat (Z.of_nat n - 1 - 0 + 1)) with n by lia.
  apply map_ext. intros k. lia.
Qed.

Lemma mapRows_map f g (l : list nat) :
  (forall i, In i l -> f (Z.of_nat i) = Some (g i)) ->
  mapRows f (map Z.of_nat l) = Some (map g l).
Proof.
  induction l as [|i l IH]; intros H; [reflexivity|].
  simpl. rewrite (H i) by (left; reflexivity).
  rewrite IH by (intros k Hk; apply H; right; exact Hk). reflexivity.
Qed.

Lemma blankToNull_nullify tbl i :
  blankToNull tbl i
  = match nth_error tbl i with
    | Some row => <[i := nullify row]> tbl
    | None => tbl
    end.
Proof.
  unfold blankToNull, nullify. destruct (nth_error tbl i) as [row|] eqn:E;
    [|reflexivity].
  assert (<[i := row]> tbl = tbl) as Hid
    by (apply list_insert_id; rewrite <- nth_error_lookup; exact E).
  destruct (nth_error row 2) as [[q|[|a s]| |l r t]|]; auto.
Qed.

Lemma dataTableClient_prefix tbl n :
  (n <= length tbl)%nat ->
  fold_left blankToNull (seq 0 n) tbl
  = map nullify (firstn n tbl) ++ skipn n tbl.
Proof.
  induction n as [|n IH]; intros Hn; [reflexivity|].
  rewrite seq_S, fold_left_app, IH by lia. cbn [fold_left Nat.add].
  rewrite blankToNull_nullify.
  destruct (lookup_lt_is_Some_2 tbl n ltac:(lia)) as (row & Hrow).
  assert (length (map nullify (firstn n tbl)) = n) as Hlen
    by (rewrite length_map, length_firstn; lia).
  rewrite nth_error_lookup, lookup_app_r by lia.
  rewrite Hlen, Nat.sub_diag, (drop_S _ _ _ Hrow). cbn [lookup list_lookup].
  rewrite insert_app_r_alt by lia. rewrite Hlen, Nat.sub_diag.
  cbn [insert list_insert].
  rewrite (take_S_r _ _ _ Hrow), map_app, <- app_assoc. reflexivity.
Qed.

Lemma dataTableClient_map tbl : dataTableClient tbl = map nullify tbl.
Proof.
  unfold dataTableClient. rewrite dataTableClient_prefix by lia.
  rewrite firstn_all, skipn_all, app_nil_r. reflexivity.
Qed.

End ChartFacts.

(** X5. Whenever [otsu] returns a threshold, the table of the chart is the
    header followed by one row [mean, count, annotation] per bucket, in the
    order of the buckets; the annotation is ['Otsu Threshold'] on the
    first row whose mean is the threshold, which exists, and [null] on
    every other row. *)
Theorem chart_annotates_threshold (h : Histogram) (t : Q) :
  otsu h = Some t ->
  exists j, (j < size h)%nat /\
    nth j (means h) 0 == t /\
    (forall i, (i < j)%nat -> ~ nth i (means h) 0 == t) /\
    chart h
    = Some (columnHeader ++
            map (fun i => [CNumber (nth i (means h) 0);
                           CNumber (nth i (counts h) 0);
                           if (i =? j)%nat then CString "Otsu Threshold"
                           else CNull])
              (seq 0 (size h))).
Proof.
  intros Hotsu.
  destruct (otsu_some h t Hotsu) as [Hlen Hin].
  destruct (indexOf_found _ _ Hin) as (j & Hj & Hlt & Heq & Hfirst).
  exists j. split; [exact Hlt|]. split; [exact Heq|]. split; [exact Hfirst|].
  unfold chart. rewrite Hotsu. unfold dataTable.
  change (bucketMeans h) with (means h). change (histogram h) with (counts h).
  rewrite catColumns_rows by (symmetry; exact Hlen).
  rewrite Hj. unfold EE.listSet. rewrite repeat_length.
  rewrite position_in_range by exact Hlt.
  rewrite sequenceZ_rows.
  rewrite (mapRows_map _
             (fun i => [CNumber (nth i (means h) 0);
                        CNumber (nth i (counts h) 0);
                        CString (if (i =? j)%nat then "Otsu Threshold"
                                 else EmptyString)])).
  - cbn [fmap option_fmap option_map]. f_equal.
    rewrite dataTableClient_map, map_app, map_map. f_equal.
    apply map_ext. intros i. unfold nullify. cbn [nth_error].
    destruct (i =? j)%nat; reflexivity.
  - intros i Hi. apply in_seq in Hi. unfold annotatedRow, EE.listGet.
    rewrite length_map, length_combine, Hlen, Nat.min_id, length_insert,
      repeat_length.
    rewrite position_in_range by lia.
    rewrite nth_error_map.
    assert (nth_error (combine (means h) (counts h)) i
            = Some (nth i (means h) 0, nth i (counts h) 0)) as ->.
    { rewrite <- (combine_nth _ _ i 0 0) by (symmetry; exact Hlen).
      apply nth_error_nth'. rewrite length_combine. lia. }
    cbn [option_map fst snd].
    rewrite nth_error_lookup.
    destruct (Nat.eqb_spec i j) as [->|Hne].
    + rewrite list_lookup_insert_eq by (rewrite repeat_length; lia).
      reflexivity.
    + rewrite list_lookup_insert_ne by congruence.
      rewrite <- nth_error_lookup, nth_error_repeat by lia. reflexivity.
Qed.

(** ** The properties above on the example inputs *)

Section ThresholderProperties.

Lemma bssAt_nonnegative_witness :
  nonNegativeCounts twoBuckets /\ 0 <= bssAt twoBuckets 1.
Proof.
  assert (nonNegativeCounts twoBuckets) as Hnn
    by (repeat constructor; unfold Qle; simpl; lia).
  split; [exact Hnn|]. exact (bssAt_nonnegative twoBuckets 1 Hnn).
Defined.

Lemma chart_annotates_threshold_witness :
  exists j, (j < size twoPeaks)%nat /\
    nth j (means twoPeaks) 0 == -15 /\
    (forall i, (i < j)%nat -> ~ nth i (means twoPeaks) 0 == -15) /\
    chart twoPeaks
    = Some (columnHeader ++
            map (fun i => [CNumber (nth i (means twoPeaks) 0);
                           CNumber (nth i (counts twoPeaks) 0);
                           if (i =? j)%nat then CString "Otsu Threshold"
                           else CNull])
              (seq 0 (size twoPeaks))).
Proof. exact (chart_annotates_threshold twoPeaks (-15) eq_refl). Defined.

End ThresholderProperties.

Section InitialisationProperties.

Lemma season_covers_three_months_witness :
  exists st start stop s e,
    initialise defaults = Normal (st, (start, stop)) /\
    monthOf start = Some s /\ monthOf stop = Some e /\
    (e - s = 3)%Z /\
    (if String.eqb (userSeason defaults) "Winter"
     then s = (12 * (userYear defaults - 1) + 11)%Z
     else (12 * userYear defaults <= s)%Z /\
          (e <= 12 * userYear defaults + 12)%Z).
Proof. exact (season_covers_three_months defaults eq_refl). Defined.

End InitialisationProperties.

Section EdgeFilterProperties.

Lemma edges_none_longer_than_cap_witness :
  inject_Z (Z.of_nat (connectedPixels longerThanCap)) < edgeLength longerThanCap /\
  EE.pixel (edges longerThanCap (straightEdge 5)) (0, 0)%Z
  = (if EE.nonZero (straightEdge 5) (0, 0)%Z then Some 0 else None).
Proof.
  assert (inject_Z (Z.of_nat (connectedPixels longerThanCap))
          < edgeLength longerThanCap) as Hcap by reflexivity.
  split; [exact Hcap|].
  exact (edges_none_longer_than_cap longerThanCap (straightEdge 5) (0, 0)%Z Hcap).
Defined.

Lemma edges_all_kept_witness :
  edgeLength keepAllNoBuffer <= 1 /\
  (1 <= connectedPixels keepAllNoBuffer)%nat /\
  EE.pixel (edges keepAllNoBuffer (straightEdge 3)) (1, 0)%Z
  = (if EE.nonZero (straightEdge 3) (1, 0)%Z then Some 1 else None).
Proof.
  assert (edgeLength keepAllNoBuffer <= 1) as HL
    by (unfold Qle; simpl; lia).
  assert (1 <= connectedPixels keepAllNoBuffer)%nat as Hn by (simpl; lia).
  split; [exact HL|]. split; [exact Hn|].
  exact (edges_all_kept keepAllNoBuffer (straightEdge 3) (1, 0)%Z HL Hn).
Defined.

Lemma edges_neighbours_agree_witness :
  EE.pixel (edges defaults (straightEdge 2)) (0, 0)%Z
  = EE.pixel (edges defaults (straightEdge 2)) (1, 0)%Z.
Proof.
  apply (edges_neighbours_agree defaults (straightEdge 2)
           (0, 0)%Z (1, 0)%Z 1 1).
  - simpl. tauto.
  - reflexivity.
  - reflexivity.
  - unfold Qeq. simpl. lia.
  - unfold Qeq. simpl. lia.
  - reflexivity.
Defined.

End EdgeFilterProperties.

Section BufferProperties.

Lemma bufferedEdges_cells_witness :
  exists buffer,
    bufferedEdges (withEdgeBuffer keepAllNoBuffer 60) referenceScene
      (straightEdge 1) = Some buffer /\
    (EE.pixel buffer (0, 1)%Z = Some 1 <->
     exists q,
       (- Z.of_nat EE.defaultNeighborhood <= fst q - 0
        <= Z.of_nat EE.defaultNeighborhood)%Z /\
       (- Z.of_nat EE.defaultNeighborhood <= snd q - 1
        <= Z.of_nat EE.defaultNeighborhood)%Z /\
       EE.pixel (edges (withEdgeBuffer keepAllNoBuffer 60) (straightEdge 1)) q
       = Some 1 /\
       inject_Z (EE.squaredDistance (0, 1)%Z q)
       < EE.divide (edgeBuffer (withEdgeBuffer keepAllNoBuffer 60))
           (EE.nominalScale (EE.projection referenceScene))).
Proof.
  eexists. split; [reflexivity|].
  exact (bufferedEdges_cells (withEdgeBuffer keepAllNoBuffer 60) referenceScene
           (straightEdge 1) _ (0, 1)%Z eq_refl).
Defined.

Lemma edges_in_buffer_witness :
  exists buffer,
    0 < edgeBuffer (withEdgeBuffer keepAllNoBuffer 60) /\
    0 < EE.nominalScale (EE.projection referenceScene) /\
    bufferedEdges (withEdgeBuffer keepAllNoBuffer 60) referenceScene
      (straightEdge 1) = Some buffer /\
    EE.pixel (edges (withEdgeBuffer keepAllNoBuffer 60) (straightEdge 1))
      (0, 0)%Z = Some 1 /\
    EE.pixel buffer (0, 0)%Z = Some 1.
Proof.
  eexists.
  assert (0 < edgeBuffer (withEdgeBuffer keepAllNoBuffer 60)) as Hd
    by reflexivity.
  assert (0 < EE.nominalScale (EE.projection referenceScene)) as Hs
    by reflexivity.
  assert (EE.pixel (edges (withEdgeBuffer keepAllNoBuffer 60) (straightEdge 1))
            (0, 0)%Z = Some 1) as Hc by (vm_compute; reflexivity).
  split; [exact Hd|]. split; [exact Hs|]. split; [reflexivity|].
  split; [exact Hc|].
  exact (edges_in_buffer (withEdgeBuffer keepAllNoBuffer 60) referenceScene
           (straightEdge 1) _ (0, 0)%Z Hd Hs eq_refl Hc).
Defined.

Lemma edgeImage_pixels_witness :
  exists image buffer,
    edgeImage (withEdgeBuffer keepAllNoBuffer 60) referenceScene twoCells
      (straightEdge 1) = Some image /\
    bufferedEdges (withEdgeBuffer keepAllNoBuffer 60) referenceScene
      (straightEdge 1) = Some buffer /\
    forall c v,
      EE.pixel image c = Some v <->
      EE.pixel twoCells c = Some v /\ EE.pixel buffer c = Some 1.
Proof.
  eexists.
  assert (edgeImage (withEdgeBuffer keepAllNoBuffer 60) referenceScene twoCells
            (straightEdge 1)
          = Some (EE.updateMask
                    (s1Mosaic (withEdgeBuffer keepAllNoBuffer 60) twoCells)
                    (EE.lt (EE.fastDistanceTransform
                              (edges (withEdgeBuffer keepAllNoBuffer 60)
                                 (straightEdge 1)))
                       (EE.divide 60 10)))) as Himg by reflexivity.
  destruct (edgeImage_pixels _ _ _ _ _ Himg) as (buffer & Hb & Hpix).
  exists buffer. split; [exact Himg|]. split; [exact Hb|exact Hpix].
Defined.

Lemma edgeImage_empty_witness :
  exists image,
    edgeBuffer keepAllNoBuffer <= 0 /\
    0 <= EE.nominalScale (EE.projection referenceScene) /\
    edgeImage keepAllNoBuffer referenceScene twoCells (straightEdge 1)
    = Some image /\
    EE.pixel image (0, 0)%Z = None.
Proof.
  eexists.
  assert (edgeBuffer keepAllNoBuffer <= 0) as Hd by (unfold Qle; simpl; lia).
  assert (0 <= EE.nominalScale (EE.projection referenceScene)) as Hs
    by (unfold Qle; simpl; lia).
  split; [exact Hd|]. split; [exact Hs|]. split; [reflexivity|].
  exact (edgeImage_empty keepAllNoBuffer referenceScene twoCells
           (straightEdge 1) _ (0, 0)%Z Hd Hs eq_refl).
Defined.

End BufferProperties.

Section WaterProperties.

Lemma water_grows_with_threshold_witness :
  exists low high,
    -12 <= -3 /\
    localWater defaults twoCells (-12) = Some low /\
    globalWater defaults twoCells (-3) = Some high /\
    (EE.pixel low (0, 0)%Z = Some 1 -> EE.pixel high (0, 0)%Z = Some 1) /\
    (EE.pixel high (0, 0)%Z = Some 0 -> EE.pixel low (0, 0)%Z = Some 0).
Proof.
  eexists. eexists.
  assert (-12 <= -3) as Ht by (unfold Qle; simpl; lia).
  split; [exact Ht|]. split; [reflexivity|]. split; [reflexivity|].
  exact (water_grows_with_threshold defaults twoCells (-12) (-3) _ _ (0, 0)%Z
           Ht eq_refl eq_refl).
Defined.

Lemma water_layer_selfMask_witness :
  exists water,
    globalWater defaults twoCells (-12) = Some water /\
    (EE.pixel (EE.selfMask water) (1, 0)%Z = Some 1 <->
       exists v, EE.pixel twoCells (1, 0)%Z = Some v /\ v < -12) /\
    (forall v, EE.pixel (EE.selfMask water) (1, 0)%Z = Some v -> v = 1).
Proof.
  eexists. split; [reflexivity|].
  exact (water_layer_selfMask defaults twoCells (-12) _ (1, 0)%Z eq_refl).
Defined.

Lemma waterCount_monotone_witness :
  exists n1 n2,
    Forall (fun cw => 0 <= snd cw) threePixels /\
    -12 <= -3 /\
    localWaterCount defaults twoCells (-12) threePixels = Some n1 /\
    globalWaterCount defaults twoCells (-3) threePixels = Some n2 /\
    0 <= n1 /\ n1 <= n2.
Proof.
  eexists. eexists.
  assert (Forall (fun cw : EE.Cell * Q => 0 <= snd cw) threePixels) as Hw
    by (repeat constructor; unfold Qle; simpl; lia).
  assert (-12 <= -3) as Ht by (unfold Qle; simpl; lia).
  split; [exact Hw|]. split; [exact Ht|].
  split; [reflexivity|]. split; [reflexivity|].
  exact (waterCount_monotone defaults twoCells (-12) (-3) _ _ threePixels
           Hw Ht eq_refl eq_refl).
Defined.

End WaterProperties.
